(** * prost-build/src/libprotoc.cpp: descriptor-set writer

    A shallow embedding of the C++ bridge that prost-build uses to drive
    libprotoc: path resolution ([make_inputs_relative]), root lookup
    ([parse_input_files]), the transitive import closure
    ([get_transitive_deps]), the zero-copy output stream over a caller-owned
    buffer ([BufferOutput]), the diagnostics printer ([ErrorPrinter]) and the
    exported entry point.

    Conventions.
    - [size_t] is a 64-bit unsigned integer and [int] a 32-bit signed one
      (LP64); both are carried as [Z] and every wrap-around is written out.
    - [const FileDescriptor*] is an index into the descriptor pool's arena.
    - [std::cerr] / [stderr] and [std::clog] are lists of emitted lines.
    - libprotobuf itself (DiskSourceTree, DescriptorPool, CodedOutputStream)
      is not part of this file's source; what the bridge needs from it is
      taken as a parameter or modelled in a clearly marked definition. *)

From Stdlib Require Import ZArith Lia.
From stdpp Require Import base tactics option list sets gmap strings pretty relations.

Local Open Scope Z_scope.

(** ** Machine integers *)

Module Int.

Definition size_modulus : Z := 2 ^ 64.
Definition int_modulus : Z := 2 ^ 32.

(** [std::numeric_limits<int>::max()] *)
Definition INT_MAX : Z := 2 ^ 31 - 1.

(** Reduction of a mathematical result to [size_t]. *)
Definition to_size (z : Z) : Z := z mod size_modulus.

(** Conversion to [int] (two's complement, as every LP64 compiler does). *)
Definition to_int (z : Z) : Z := (z + 2 ^ 31) mod int_modulus - 2 ^ 31.

(** Conversion to [int64_t]. *)
Definition to_int64 (z : Z) : Z := (z + 2 ^ 63) mod size_modulus - 2 ^ 63.

End Int.

(** ** ErrorPrinter: the diagnostics collector *)

Module Diag.

(** The printer's two flags together with the text it has pushed on
    [std::cerr] and [std::clog] so far, one line per [std::endl]. *)
Record ErrorPrinter := mkErrorPrinter {
  found_errors_ : bool;
  found_warnings_ : bool;
  cerr : list string;
  clog : list string
}.

(** [ErrorPrinter()] on streams that already carry some text. *)
Definition new (err log : list string) : ErrorPrinter :=
  mkErrorPrinter false false err log.

Inductive ostream := std_cerr | std_clog.

Definition emit (out : ostream) (line : string) (p : ErrorPrinter) : ErrorPrinter :=
  match out with
  | std_cerr => mkErrorPrinter (found_errors_ p) (found_warnings_ p) (cerr p ++ [line]) (clog p)
  | std_clog => mkErrorPrinter (found_errors_ p) (found_warnings_ p) (cerr p) (clog p ++ [line])
  end.

Definition set_found_errors (p : ErrorPrinter) : ErrorPrinter :=
  mkErrorPrinter true (found_warnings_ p) (cerr p) (clog p).

Definition set_found_warnings (p : ErrorPrinter) : ErrorPrinter :=
  mkErrorPrinter (found_errors_ p) true (cerr p) (clog p).

(** The text of one diagnostic, without the trailing newline. [line] and
    [column] are [int]s, and so are [line + 1] and [column + 1]: at
    [INT_MAX] the sum wraps to [INT_MIN]. *)
Definition format (filename : string) (line column : Z) (message type : string) : string :=
  let loc := if bool_decide (line ≠ -1)
             then ":" +:+ pretty (Int.to_int (line + 1)) +:+
                  ":" +:+ pretty (Int.to_int (column + 1))
             else EmptyString in
  if String.eqb type "warning"
  then filename +:+ loc +:+ ": warning: " +:+ message
  else filename +:+ loc +:+ ": " +:+ message.

(** [AddErrorOrWarning] (private). *)
Definition AddErrorOrWarning (filename : string) (line column : Z)
    (message type : string) (out : ostream) (p : ErrorPrinter) : ErrorPrinter :=
  emit out (format filename line column message type) p.

(** MultiFileErrorCollector *)
Definition AddError (filename : string) (line column : Z) (message : string)
    (p : ErrorPrinter) : ErrorPrinter :=
  AddErrorOrWarning filename line column message "error" std_cerr (set_found_errors p).

Definition AddWarning (filename : string) (line column : Z) (message : string)
    (p : ErrorPrinter) : ErrorPrinter :=
  AddErrorOrWarning filename line column message "warning" std_clog (set_found_warnings p).

(** io::ErrorCollector *)
Definition AddError_io (line column : Z) (message : string) (p : ErrorPrinter) : ErrorPrinter :=
  AddError "input" line column message p.

Definition AddWarning_io (line column : Z) (message : string) (p : ErrorPrinter) : ErrorPrinter :=
  AddErrorOrWarning "input" line column message "warning" std_clog p.

(** DescriptorPool::ErrorCollector; the descriptor and the error location
    are ignored by the code and left out. *)
Definition AddError_pool (filename element_name message : string)
    (p : ErrorPrinter) : ErrorPrinter :=
  AddErrorOrWarning filename (-1) (-1) message "error" std_cerr p.

Definition AddWarning_pool (filename element_name message : string)
    (p : ErrorPrinter) : ErrorPrinter :=
  AddErrorOrWarning filename (-1) (-1) message "warning" std_clog p.

Definition FoundErrors (p : ErrorPrinter) : bool := found_errors_ p.
Definition FoundWarnings (p : ErrorPrinter) : bool := found_warnings_ p.

(** One call on the collector, through any of its three interfaces. *)
Inductive Report :=
  | MultiFileError (filename : string) (line column : Z) (message : string)
  | MultiFileWarning (filename : string) (line column : Z) (message : string)
  | StreamError (line column : Z) (message : string)
  | StreamWarning (line column : Z) (message : string)
  | PoolError (filename element_name message : string)
  | PoolWarning (filename element_name message : string).

Definition report (r : Report) (p : ErrorPrinter) : ErrorPrinter :=
  match r with
  | MultiFileError f l c m => AddError f l c m p
  | MultiFileWarning f l c m => AddWarning f l c m p
  | StreamError l c m => AddError_io l c m p
  | StreamWarning l c m => AddWarning_io l c m p
  | PoolError f e m => AddError_pool f e m p
  | PoolWarning f e m => AddWarning_pool f e m p
  end.

(** A whole sequence of calls, in order. *)
Definition report_all (rs : list Report) (p : ErrorPrinter) : ErrorPrinter :=
  foldl (fun q r => report r q) p rs.

End Diag.

(** ** make_inputs_relative: the path resolver *)

Module Paths.

(** What [DiskSourceTree::DiskFileToVirtualFile] hands back: the enum value
    together with the out-parameter the caller reads in that case. For
    [CANNOT_OPEN] the two strings are [GetLastErrorMessage()] and
    [strerror(errno)] as they stand right after the call. *)
Inductive DiskFileToVirtualFileResult :=
  | SUCCESS (virtual_file : string)
  | SHADOWED (shadowing_disk_file : string)
  | CANNOT_OPEN (last_error_message strerror_errno : string)
  | NO_MAPPING.

(** The part of libprotobuf's [DiskSourceTree] that the bridge calls. *)
Record DiskSourceTree := mkDiskSourceTree {
  DiskFileToVirtualFile : string -> DiskFileToVirtualFileResult;
  VirtualFileToDiskFile : string -> option string
}.

Definition dquote : string := String (Ascii.ascii_of_nat 34) EmptyString.

(** What [%s] prints of [s.c_str()]: a [std::string] may hold NUL bytes, and
    the text stops in front of the first one. *)
Fixpoint c_str (s : string) : string :=
  match s with
  | EmptyString => EmptyString
  | String c rest => if Ascii.eqb c Ascii.zero then EmptyString else String c (c_str rest)
  end.

Definition shadowed_message (input_file shadowing_disk_file : string) : string :=
  input_file +:+ ": Input is shadowed by an include in " +:+ dquote +:+
  shadowing_disk_file +:+ dquote +:+
  ".Either use the latter file as your input or reorder the" +:+
  "includes so that the former file's location comes first.".

Definition cannot_open_message (input_file error_str : string) : string :=
  "Could not map to virtual file: " +:+ input_file +:+ ": " +:+ error_str.

Definition no_mapping_message (input_file : string) : string :=
  input_file +:+ ": File does not reside within any include path.".

Definition is_empty (s : string) : bool :=
  match s with EmptyString => true | String _ _ => false end.

(** [make_inputs_relative]: the vector is rewritten in place, so the result
    carries the vector as the function leaves it, and the lines written to
    [stderr]. A [return] inside the loop leaves the remaining entries as
    they were. The three diagnostics go through [fprintf] with [%s] on
    [c_str()], the three message functions above taking what [%s] prints. *)
Fixpoint make_inputs_relative (source_tree : DiskSourceTree) (inputs : list string)
    (stderr : list string) : bool * list string * list string :=
  match inputs with
  | [] => (true, [], stderr)
  | input_file :: rest =>
    match DiskFileToVirtualFile source_tree input_file with
    | SUCCESS virtual_file =>
        let '(ok, rest', stderr') := make_inputs_relative source_tree rest stderr in
        (ok, virtual_file :: rest', stderr')
    | SHADOWED shadowing_disk_file =>
        (false, input_file :: rest,
         stderr ++ [shadowed_message (c_str input_file) (c_str shadowing_disk_file)])
    | CANNOT_OPEN last_error_message strerror_errno =>
        let error_str := if is_empty last_error_message
                         then strerror_errno else last_error_message in
        (false, input_file :: rest,
         stderr ++ [cannot_open_message (c_str input_file) (c_str error_str)])
    | NO_MAPPING =>
        match VirtualFileToDiskFile source_tree input_file with
        | Some disk_file => (true, input_file :: rest, stderr)
        | None => (false, input_file :: rest,
                   stderr ++ [no_mapping_message (c_str input_file)])
        end
    end
  end.

(** The input maps to a name under one of the roots. *)
Definition maps (t : DiskSourceTree) (input : string) : Prop :=
  exists v, DiskFileToVirtualFile t input = SUCCESS v.

End Paths.

(** ** get_transitive_deps: the import closure *)

Module Closure.

(** A [const FileDescriptor*]: an index into the pool's arena. *)
Abbreviation ptr := positive (only parsing).

(** What the bridge reads of a [FileDescriptor]. The three payload fields
    stand for what [CopyTo], [CopyJsonNameTo] and [CopySourceCodeInfoTo]
    transfer; their structure plays no role here. *)
Record FileDescriptor := mkFileDescriptor {
  name : string;
  dependency : list ptr;
  content : string;
  json_names : string;
  source_code_info : string
}.

Record FileDescriptorProto := mkFileDescriptorProto {
  proto_name : string;
  proto_dependency : list string;
  proto_content : string;
  proto_json_names : option string;
  proto_source_code_info : option string
}.

(** [repeated FileDescriptorProto file] of a [FileDescriptorSet]. *)
Abbreviation FileDescriptorSet := (list FileDescriptorProto) (only parsing).

Abbreviation Pool := (gmap positive FileDescriptor) (only parsing).

Definition name_of (pool : Pool) (p : ptr) : string :=
  match pool !! p with Some d => name d | None => EmptyString end.

(** [file->CopyTo(proto)]: name, the names of the imports, the content. *)
Definition CopyTo (pool : Pool) (file : FileDescriptor) : FileDescriptorProto :=
  mkFileDescriptorProto (name file) (name_of pool <$> dependency file)
                        (content file) None None.

Definition CopyJsonNameTo (file : FileDescriptor) (p : FileDescriptorProto)
    : FileDescriptorProto :=
  mkFileDescriptorProto (proto_name p) (proto_dependency p) (proto_content p)
                        (Some (json_names file)) (proto_source_code_info p).

Definition CopySourceCodeInfoTo (file : FileDescriptor) (p : FileDescriptorProto)
    : FileDescriptorProto :=
  mkFileDescriptorProto (proto_name p) (proto_dependency p) (proto_content p)
                        (proto_json_names p) (Some (source_code_info file)).

(** The record appended for [file] at the end of [get_transitive_deps]. *)
Definition new_descriptor (pool : Pool) (include_json_name include_source_code_info : bool)
    (file : FileDescriptor) : FileDescriptorProto :=
  let d := CopyTo pool file in
  let d := if include_json_name then CopyJsonNameTo file d else d in
  if include_source_code_info then CopySourceCodeInfoTo file d else d.

(** A [for] loop whose body threads a state and may fail. *)
Fixpoint for_each {X S : Type} (body : X -> S -> option S) (xs : list X) (s : S)
    : option S :=
  match xs with
  | [] => Some s
  | x :: xs' =>
    match body x s with
    | Some s' => for_each body xs' s'
    | None => None
    end
  end.

(** [get_transitive_deps]. The two out-parameters [already_seen] and [output]
    are threaded as a pair. [fuel] bounds the recursion depth; [None] means
    the fuel ran out or a pointer outside the arena was dereferenced. *)
Fixpoint get_transitive_deps (pool : Pool) (fuel : nat) (file : ptr)
    (include_json_name include_source_code_info : bool)
    (st : gset positive * FileDescriptorSet) : option (gset positive * FileDescriptorSet) :=
  match fuel with
  | O => None
  | S fuel' =>
    let '(already_seen, output) := st in
    if decide (file ∈ already_seen) then Some st
    else
      match pool !! file with
      | None => None
      | Some d =>
        match for_each
                (fun dep => get_transitive_deps pool fuel' dep
                              include_json_name include_source_code_info)
                (dependency d) ({[file]} ∪ already_seen, output) with
        | None => None
        | Some (already_seen', output') =>
            Some (already_seen',
                  output' ++ [new_descriptor pool include_json_name
                                             include_source_code_info d])
        end
      end
  end.

(** Recursion depth that always suffices: one more than the arena's size. *)
Definition enough_fuel (pool : Pool) : nat := S (size (dom pool)).

(** The first half of [write_descriptor_set]: one traversal per parsed file,
    all sharing [already_seen]; the result is [file_set.file]. *)
Definition build_file_set (pool : Pool) (fuel : nat) (parsed_files : list ptr)
    : option (gset positive * FileDescriptorSet) :=
  for_each (fun parsed => get_transitive_deps pool fuel parsed true true)
           parsed_files (∅, []).

(** The same traversal, recording which descriptor each appended record was
    copied from (used only to state and prove properties of the output). *)
Fixpoint visit_order (pool : Pool) (fuel : nat) (file : ptr)
    (st : gset positive * list ptr) : option (gset positive * list ptr) :=
  match fuel with
  | O => None
  | S fuel' =>
    let '(already_seen, order) := st in
    if decide (file ∈ already_seen) then Some st
    else
      match pool !! file with
      | None => None
      | Some d =>
        match for_each (visit_order pool fuel') (dependency d)
                       ({[file]} ∪ already_seen, order) with
        | None => None
        | Some (already_seen', order') => Some (already_seen', order' ++ [file])
        end
      end
  end.

(** [a] imports [b] directly. *)
Definition edge (pool : Pool) (a b : ptr) : Prop :=
  exists d, pool !! a = Some d /\ b ∈ dependency d.

(** Every import of every descriptor in the arena is itself in the arena. *)
Definition closed (pool : Pool) : Prop :=
  forall a b, edge pool a b -> is_Some (pool !! b).

(** No file imports itself, directly or through other files. *)
Definition acyclic (pool : Pool) : Prop :=
  forall a, ~ tc (edge pool) a a.

(** The record that the traversal appends for the descriptor at [p]. *)
Definition proto_at (pool : Pool) (ij isi : bool) (p : ptr) (r : FileDescriptorProto) : Prop :=
  exists d, pool !! p = Some d /\ r = new_descriptor pool ij isi d.

(** The same traversal over a batch of roots. *)
Definition build_order (pool : Pool) (fuel : nat) (parsed_files : list ptr)
    : option (gset positive * list ptr) :=
  for_each (visit_order pool fuel) parsed_files (∅, []).

(** Every import of the [i]-th new entry is in [order] or among the new
    entries before it. *)
Definition imports_first (pool : Pool) (order new : list ptr) : Prop :=
  forall i n d, new !! i = Some n -> edge pool n d -> d ∈ order ++ take i new.

(** What a run of the traversal over [roots] adds to [(seen, order)]: the
    entries [new], each new to [seen], each reachable from a root, each with
    all its imports seen by the end. When the graph is acyclic and every
    descriptor that is seen but not yet emitted (a caller higher up in the
    recursion) imports the roots, imports come first. *)
Record extends (pool : Pool) (roots : list ptr)
    (seen : gset positive) (order : list ptr)
    (seen' : gset positive) (order' new : list ptr) : Prop := mkExtends {
  ext_order : order' = order ++ new;
  ext_seen : seen' = seen ∪ list_to_set new;
  ext_nodup : NoDup new;
  ext_fresh : forall n, n ∈ new -> n ∉ seen;
  ext_roots : forall r, r ∈ roots -> r ∈ seen';
  ext_reach : forall n, n ∈ new -> exists r, r ∈ roots /\ rtc (edge pool) r n;
  ext_closed : forall n d, n ∈ new -> edge pool n d -> d ∈ seen';
  ext_topo : acyclic pool ->
             (forall s r, s ∈ seen -> s ∉ order -> r ∈ roots -> tc (edge pool) s r) ->
             imports_first pool order new
}.

(** The two traversals in step: same seen set, and the records appended
    after [out0] are those of the descriptors in the recorded order. *)
Definition in_step (pool : Pool) (ij isi : bool) (out0 : FileDescriptorSet)
    (st : gset positive * FileDescriptorSet) (gt : gset positive * list ptr) : Prop :=
  st.1 = gt.1 /\
  exists ps, st.2 = out0 ++ ps /\ Forall2 (proto_at pool ij isi) gt.2 ps.

End Closure.

(** ** BufferOutput: the stream over the caller's buffer *)

Module Stream.

Import Int.

(** [struct Buffer]: the two callbacks the caller passes in. The opaque
    [context] pointer is the caller's state [C]; a callback may change it, so
    [resize_buffer] returns the new state next to the base address ([0] is the
    null pointer). [store] is not a field of the C struct: it is what a write
    of some bytes through a raw pointer does to the caller's state, and it is
    what the serializer uses on the regions that [Next] hands out. *)
Record Buffer (C : Type) := mkBuffer {
  resize_buffer : C -> Z -> C * Z;
  buffer_capacity : C -> Z;
  store : C -> Z -> list Byte.byte -> C
}.
Arguments resize_buffer {C}.
Arguments buffer_capacity {C}.
Arguments store {C}.

(** The data members of [BufferOutput] next to [impl]. *)
Record BufferOutput := mkBufferOutput {
  buffer_base : Z;
  len : Z
}.

(** [BufferOutput(Buffer* impl)] *)
Definition init : BufferOutput := mkBufferOutput 0 0.

(** What [Next] leaves in [*data] and [*size], and its return value. *)
Record Region := mkRegion {
  ok : bool;
  data : Z;
  size : Z
}.

(** The size that [Next] asks the caller for, from [len] and the capacity
    that the caller reports. *)
Definition next_size (old_size cur_cap : Z) : Z :=
  let new_size := if old_size <? cur_cap then cur_cap else to_size (old_size * 2) in
  let new_size := Z.min new_size (to_size (old_size + INT_MAX)) in
  Z.max new_size 1024.

(** [BufferOutput::Next] *)
Definition Next {C} (impl : Buffer C) (s : BufferOutput) (ctx : C)
    : Region * BufferOutput * C :=
  let old_size := len s in
  let cur_cap := to_size (buffer_capacity impl ctx) in
  let new_size := next_size old_size cur_cap in
  let '(ctx', base) := resize_buffer impl ctx new_size in
  (mkRegion true (base + old_size) (to_int (to_size (new_size - old_size))),
   mkBufferOutput base new_size,
   ctx').

(** [BufferOutput::BackUp] *)
Definition BackUp {C} (impl : Buffer C) (count : Z) (s : BufferOutput) (ctx : C)
    : BufferOutput * C :=
  let '(ctx', base) := resize_buffer impl ctx (to_size (len s - count)) in
  (mkBufferOutput base (len s), ctx').

(** [BufferOutput::ByteCount] *)
Definition ByteCount (s : BufferOutput) : Z := to_int64 (len s).

(** *** The client of the stream

    Modelled from the spec: the serializer that drives the buffer bridge
    (libprotobuf's [CodedOutputStream], not among the sources). It follows
    the protocol of a write sink with the operations request-next-region
    and retract-unused-tail: the constructor asks for a first region; bytes
    are stored front to back in the region at hand, and a further region is
    requested whenever the current one is full and bytes remain; a failed
    [Next] sets the error flag and stops; the destructor returns the unused
    tail of the last region with one [BackUp]. *)

Record Coded := mkCoded {
  cur : Z;          (* where the next byte goes *)
  avail : Z;        (* bytes left in the region at hand *)
  had_error : bool
}.

(** Modelled from the spec: the write loop of the serializer. [fuel] bounds
    the number of steps (a step stores a chunk or requests a region). *)
Fixpoint write_raw {C} (impl : Buffer C) (fuel : nat) (bytes : list Byte.byte)
    (co : Coded) (s : BufferOutput) (ctx : C) : option (Coded * BufferOutput * C) :=
  match bytes with
  | [] => Some (co, s, ctx)
  | _ :: _ =>
    match fuel with
    | O => None
    | S fuel' =>
      if 0 <? avail co then
        let k := Nat.min (Z.to_nat (avail co)) (length bytes) in
        write_raw impl fuel' (drop k bytes)
                  (mkCoded (cur co + Z.of_nat k) (avail co - Z.of_nat k) false)
                  s (store impl ctx (cur co) (take k bytes))
      else
        let '(r, s', ctx') := Next impl s ctx in
        if ok r
        then write_raw impl fuel' bytes (mkCoded (data r) (size r) false) s' ctx'
        else Some (mkCoded (cur co) 0 true, s', ctx')
    end
  end.

(** Modelled from the spec: one serialization through the bridge. Construct
    a [CodedOutputStream] on the stream, serialize a message whose encoding
    is [bytes] with [SerializeToCodedStream], destroy the coded stream. The
    boolean is what [SerializeToCodedStream] returns: libprotobuf refuses a
    message of more than [INT_MAX] bytes without writing anything, and
    otherwise writes the bytes and returns [!HadError()]. The destructor
    gives the unused tail back unless an error was seen. [None]: the stream
    kept handing out empty regions. *)
Definition write_coded {C} (impl : Buffer C) (bytes : list Byte.byte)
    (s : BufferOutput) (ctx : C) : option (bool * BufferOutput * C) :=
  let '(r, s, ctx) := Next impl s ctx in
  let co := if ok r then mkCoded (data r) (size r) false else mkCoded 0 0 false in
  let serialized :=
    if INT_MAX <? Z.of_nat (length bytes) then Some (false, (co, s, ctx))
    else match write_raw impl (2 * length bytes) bytes co s ctx with
         | None => None
         | Some (co, s, ctx) => Some (negb (had_error co), (co, s, ctx))
         end in
  match serialized with
  | None => None
  | Some (result, (co, s, ctx)) =>
    if had_error co then Some (result, s, ctx)
    else if 0 <? avail co
    then let '(s, ctx) := BackUp impl (avail co) s ctx in Some (result, s, ctx)
    else Some (result, s, ctx)
  end.

End Stream.

(** ** The two [write_descriptor_set] functions and [parse_input_files] *)

Module Bridge.

Import Diag Paths Closure Stream.

(** libprotobuf and the file system, as the entry point uses them.
    - [source_tree includes] is the [DiskSourceTree] after
      [MapPath(include, empty)] for every include, in order.
    - [arena includes] holds the [FileDescriptor]s of the [DescriptorPool]
      built over that tree.
    - [FindFileByName includes input] is the pool's lookup: the descriptor
      if there is one, and the calls it makes on the error collector that was
      registered with [RecordErrorsTo].
    - [SerializeToBytes deterministic layout file_set] is the wire encoding
      of a [FileDescriptorSet]; [layout] stands for whatever the encoder is
      free to vary between two runs when determinism is not requested. *)
Record Protobuf := mkProtobuf {
  source_tree : list string -> DiskSourceTree;
  arena : list string -> gmap positive FileDescriptor;
  FindFileByName : list string -> string -> option positive * list Report;
  SerializeToBytes : bool -> Z -> list FileDescriptorProto -> list Byte.byte
}.

(** [parse_input_files]; [parsed_files] is the out-parameter. *)
Fixpoint parse_input_files (find : string -> option positive * list Report)
    (input_files : list string) (parsed_files : list positive) (ec : ErrorPrinter)
    : bool * list positive * ErrorPrinter :=
  match input_files with
  | [] => (true, parsed_files, ec)
  | input :: rest =>
    let '(parsed_file, reports) := find input in
    let ec := report_all reports ec in
    match parsed_file with
    | None => (false, parsed_files, ec)
    | Some f => parse_input_files find rest (parsed_files ++ [f]) ec
    end
  end.

(** [bool write_descriptor_set(parsed_files, output)]. The stream is set to
    deterministic serialization before the set is written. *)
Definition write_descriptor_set {C} (pb : Protobuf) (pool : gmap positive FileDescriptor)
    (layout : Z) (parsed_files : list positive) (output : Buffer C) (ctx : C)
    : option (bool * C) :=
  match build_file_set pool (enough_fuel pool) parsed_files with
  | None => None
  | Some (_, file_set) =>
    let deterministic := true in
    match write_coded output (SerializeToBytes pb deterministic layout file_set)
                      Stream.init ctx with
    | None => None
    | Some (ok, _, ctx') => Some (ok, ctx')
    end
  end.

(** What one call of the exported function leaves behind. *)
Record Outcome (C : Type) := mkOutcome {
  status : Z;
  buffer : C;
  stderr : list string;
  stdlog : list string
}.
Arguments mkOutcome {C}.
Arguments status {C}.
Arguments buffer {C}.
Arguments stderr {C}.
Arguments stdlog {C}.

(** The exported [int write_descriptor_set(...)] (C linkage). [err] and
    [log] are what the two diagnostic streams hold when the call starts. *)
Definition write_descriptor_set_c {C} (pb : Protobuf) (layout : Z)
    (input_files includes_paths : list string) (output : Buffer C) (ctx : C)
    (err log : list string) : option (Outcome C) :=
  let inputs := input_files in
  let includes := includes_paths in
  let tree := source_tree pb includes in
  let '(ok, inputs, err) := make_inputs_relative tree inputs err in
  if negb ok then Some (mkOutcome 1 ctx err log)
  else
    let error_collector := Diag.new err log in
    let '(ok, parsed, error_collector) :=
      parse_input_files (FindFileByName pb includes) inputs [] error_collector in
    if negb ok then Some (mkOutcome 1 ctx (cerr error_collector) (clog error_collector))
    else
      match write_descriptor_set pb (arena pb includes) layout parsed output ctx with
      | None => None
      | Some (ok, ctx') =>
          Some (mkOutcome (if ok then 0 else 1) ctx'
                          (cerr error_collector) (clog error_collector))
      end.

(** Everything the exported function does before it calls the writer, step
    for step as above: the roots it resolved, if it got that far, and the
    two diagnostic streams. *)
Definition front_end (pb : Protobuf) (input_files includes_paths : list string)
    (err log : list string) : option (list positive) * list string * list string :=
  let tree := source_tree pb includes_paths in
  let '(ok, inputs, err) := make_inputs_relative tree input_files err in
  if negb ok then (None, err, log)
  else
    let '(ok, parsed, ec) :=
      parse_input_files (FindFileByName pb includes_paths) inputs [] (Diag.new err log) in
    if negb ok then (None, cerr ec, clog ec) else (Some parsed, cerr ec, clog ec).

(** The encoding of the closure of the requested files stays within the
    [INT_MAX] bytes that libprotobuf allows a message. *)
Definition encoding_fits (pb : Protobuf) (input_files includes_paths : list string) : Prop :=
  forall err log parsed seen file_set layout,
    (front_end pb input_files includes_paths err log).1.1 = Some parsed ->
    build_file_set (arena pb includes_paths) (enough_fuel (arena pb includes_paths)) parsed
    = Some (seen, file_set) ->
    Z.of_nat (length (SerializeToBytes pb true layout file_set)) <= Int.INT_MAX.

(** The lookups hand out descriptors of the arena, and the arena has no
    dangling import. *)
Definition pool_ok (pb : Protobuf) (includes : list string) : Prop :=
  closed (arena pb includes) /\
  forall input f, (FindFileByName pb includes input).1 = Some f ->
                  is_Some (arena pb includes !! f).

(** An error-severity call that carries [file] as its file name. *)
Definition names_file (file : string) (r : Report) : Prop :=
  match r with
  | MultiFileError f _ _ _ => f = file
  | PoolError f _ _ => f = file
  | _ => False
  end.

(** The resolution service reports every lookup that fails: at least one
    error naming the requested file reaches the collector. *)
Definition reports_failures (pb : Protobuf) (includes : list string) : Prop :=
  forall input, (FindFileByName pb includes input).1 = None ->
                Exists (names_file input) (FindFileByName pb includes input).2.

(** Asking for deterministic serialization fixes the bytes. *)
Definition deterministic_encoder (pb : Protobuf) : Prop :=
  forall l1 l2 file_set, SerializeToBytes pb true l1 file_set = SerializeToBytes pb true l2 file_set.

(** [s] starts with [p]. *)
Definition starts_with (p s : string) : Prop := exists t, s = p +:+ t.

End Bridge.

(** ** A caller's buffer *)

Module Caller.

Import Stream.

(** Modelled from the spec: the caller-owned OutputBuffer (the Rust side of
    the bridge is not among the sources). It is a growable byte vector with
    the two operations the spec names: grow-or-shrink-to(new_size), returning
    the base address, and current_capacity(). Growing fills with zero bytes;
    the capacity never shrinks. *)
Record Vec := mkVec {
  bytes : list Byte.byte;
  cap : Z;
  base : Z
}.

Definition resize (v : Vec) (new_size : Z) : Vec * Z :=
  let n := Z.to_nat new_size in
  (mkVec (take n (bytes v ++ replicate n Byte.x00)) (Z.max (cap v) new_size) (base v),
   base v).

Definition capacity (v : Vec) : Z := cap v.

(** A store through [base + off]. *)
Definition poke (v : Vec) (address : Z) (bs : list Byte.byte) : Vec :=
  let off := Z.to_nat (address - base v) in
  mkVec (take off (bytes v) ++ bs ++ drop (off + length bs) (bytes v)) (cap v) (base v).

Definition vec_buffer : Buffer Vec := mkBuffer Vec resize capacity poke.

(** A caller whose resize callback cannot provide memory: it returns the null
    pointer. Its state logs every resize request. A store through a pointer
    derived from what it returned is a store through the null pointer: the
    process is killed there, which the state records, and nothing happens
    after that. *)
Inductive Event :=
  | Resized (new_size : Z)
  | Killed (address : Z).

Definition killed (log : list Event) : bool :=
  match last log with
  | Some (Killed _) => true
  | _ => false
  end.

Definition failing_buffer : Buffer (list Event) :=
  mkBuffer (list Event)
           (fun log new_size =>
              if killed log then (log, 0) else (log ++ [Resized new_size], 0))
           (fun _ => 0)
           (fun log address bs => if killed log then log else log ++ [Killed address]).

(** What a [Buffer] must do for its caller to find the written bytes:
    [view] is what the caller reads back from its buffer, [address] where the
    buffer currently lives. A resize returns the buffer's address, sets its
    size and keeps the bytes below the new size; a store inside the buffer
    replaces exactly the bytes it covers and moves nothing. *)
Record Faithful {C} (impl : Buffer C) (view : C -> list Byte.byte) (address : C -> Z)
    : Prop := mkFaithful {
  resize_address : forall c n, 0 <= n ->
    (resize_buffer impl c n).2 = address (resize_buffer impl c n).1;
  resize_length : forall c n, 0 <= n ->
    length (view (resize_buffer impl c n).1) = Z.to_nat n;
  resize_keeps : forall c n, 0 <= n ->
    take (Z.to_nat n) (view c) `prefix_of` view (resize_buffer impl c n).1;
  store_view : forall c (off : nat) bs, (off + length bs <= length (view c))%nat ->
    view (store impl c (address c + Z.of_nat off) bs)
    = take off (view c) ++ bs ++ drop (off + length bs) (view c);
  store_address : forall c a bs, address (store impl c a bs) = address c
}.

(** State of the stream and its client after the bytes [done] have been
    written: the caller's buffer is [len] bytes long and starts with [done];
    the client's cursor is right behind them and its region runs to the end
    of the buffer. *)
Record written {C} (view : C -> list Byte.byte) (address : C -> Z)
    (done : list Byte.byte) (co : Coded) (s : BufferOutput) (ctx : C) : Prop := mkWritten {
  w_len : 0 <= len s;
  w_length : length (view ctx) = Z.to_nat (len s);
  w_done : take (length done) (view ctx) = done;
  w_cur : cur co = address ctx + Z.of_nat (length done);
  w_avail : avail co = len s - Z.of_nat (length done);
  w_room : 0 <= avail co;
  w_ok : had_error co = false
}.

End Caller.

(** ** A small file system used to run the bridge *)

Module Demo.

Import Diag Paths Closure Stream Bridge Caller.

(** Three files under the root [/p]: [a.proto] imports [b.proto] and
    [c.proto], [b.proto] imports [c.proto]. *)
Definition files : gmap positive FileDescriptor :=
  list_to_map
    [(1%positive, mkFileDescriptor "a.proto" [2%positive; 3%positive] "A" "ja" "sa");
     (2%positive, mkFileDescriptor "b.proto" [3%positive] "B" "jb" "sb");
     (3%positive, mkFileDescriptor "c.proto" [] "C" "jc" "sc")].

(** Two files that import each other, and a third that imports the first. *)
Definition cyclic_files : gmap positive FileDescriptor :=
  list_to_map
    [(1%positive, mkFileDescriptor "x.proto" [2%positive] "X" "jx" "sx");
     (2%positive, mkFileDescriptor "y.proto" [1%positive] "Y" "jy" "sy");
     (3%positive, mkFileDescriptor "z.proto" [1%positive; 3%positive] "Z" "jz" "sz")].

Definition lookup_name (input : string) : option positive :=
  if String.eqb input "a.proto" then Some 1%positive
  else if String.eqb input "b.proto" then Some 2%positive
  else if String.eqb input "c.proto" then Some 3%positive
  else None.

(** [broken.proto] is on disk as well, but does not parse. *)
Definition on_disk (name : string) : bool :=
  match lookup_name name with
  | Some _ => true
  | None => String.eqb name "broken.proto"
  end.

Definition tree : DiskSourceTree :=
  mkDiskSourceTree
    (fun input =>
       if String.eqb input "/p/a.proto" then SUCCESS "a.proto"
       else if String.eqb input "/p/b.proto" then SUCCESS "b.proto"
       else if String.eqb input "/p/c.proto" then SUCCESS "c.proto"
       else if String.eqb input "/p/broken.proto" then SUCCESS "broken.proto"
       else if String.eqb input "/q/a.proto" then SHADOWED "/p/a.proto"
       else if String.eqb input "/p/locked.proto" then CANNOT_OPEN "Permission denied" "EACCES"
       else NO_MAPPING)
    (fun input => if on_disk input then Some ("/p/" +:+ input) else None).

Definition find_file (input : string) : option positive * list Report :=
  match lookup_name input with
  | Some f => (Some f, [])
  | None =>
      (None,
       [if String.eqb input "broken.proto"
        then MultiFileError input 2 7 "Expected top-level statement (e.g. message)."
        else MultiFileError input (-1) 0 "File not found."])
  end.

(** A stand-in for the wire format: every record becomes the bytes of its
    name followed by a zero byte. Unless determinism is requested, the
    encoder is free to emit the records back to front. *)
Definition encode_name (s : string) : list Byte.byte :=
  String.list_byte_of_string s ++ [Byte.x00].

Definition encode (deterministic : bool) (layout : Z)
    (file_set : list FileDescriptorProto) : list Byte.byte :=
  let names := proto_name <$> file_set in
  concat (encode_name <$> (if deterministic || Z.even layout then names else reverse names)).

Definition protobuf : Protobuf :=
  mkProtobuf (fun _ => tree) (fun _ => files) (fun _ => find_file) encode.

Definition empty_vec : Vec := mkVec [] 0 4096.

End Demo.

(** ** Vocabulary for further properties *)

Module Derived.

Import Diag Paths Closure.










(** The calls that raise [found_errors_], and those that raise
    [found_warnings_]. *)
Definition raises_found_errors (r : Report) : bool :=
  match r with
  | MultiFileError _ _ _ _ | StreamError _ _ _ => true
  | _ => false
  end.

Definition raises_found_warnings (r : Report) : bool :=
  match r with
  | MultiFileWarning _ _ _ _ => true
  | _ => false
  end.

(** [input] maps to the logical name [v]. *)
Definition maps_to (t : DiskSourceTree) (input v : string) : Prop :=
  DiskFileToVirtualFile t input = SUCCESS v.

(** Every import of the [i]-th new entry is in [order], or among the new
    entries before it, or imports that entry in turn (a cycle). *)
Definition imports_first_or_cycle (pool : gmap positive FileDescriptor)
    (order new : list positive) : Prop :=
  forall i n d, new !! i = Some n -> edge pool n d ->
                d ∈ order ++ take i new \/ rtc (edge pool) d n.

(** Whatever is seen but not yet emitted imports, over one or more steps,
    each of the files about to be visited. *)
Definition pending_import (pool : gmap positive FileDescriptor)
    (seen : gset positive) (order roots : list positive) : Prop :=
  forall s r, s ∈ seen -> s ∉ order -> r ∈ roots -> tc (edge pool) s r.

End Derived.

(** * Properties *)

(** ** Machine integers *)

Module IntFacts.

Import Int.

Lemma to_size_small z : 0 <= z < size_modulus -> to_size z = z.
Proof. intros H. unfold to_size. now apply Z.mod_small. Qed.

Lemma to_int_small z : - 2 ^ 31 <= z <= INT_MAX -> to_int z = z.
Proof.
  intros H. unfold to_int, int_modulus, INT_MAX in *.
  rewrite Z.mod_small; lia.
Qed.

Lemma to_int64_small z : - 2 ^ 63 <= z < 2 ^ 63 -> to_int64 z = z.
Proof.
  intros H. unfold to_int64, size_modulus in *.
  rewrite Z.mod_small; lia.
Qed.

End IntFacts.

(** ** The diagnostics collector *)

Module DiagFacts.

Import Diag.

Lemma report_errors_mono r p :
  FoundErrors p = true -> FoundErrors (report r p) = true.
Proof.
  intros H. destruct r; first [reflexivity | exact H].
Qed.

Lemma report_warnings_mono r p :
  FoundWarnings p = true -> FoundWarnings (report r p) = true.
Proof.
  intros H. destruct r; first [reflexivity | exact H].
Qed.

Lemma report_all_snoc rs r p :
  report_all (rs ++ [r]) p = report r (report_all rs p).
Proof. unfold report_all. now rewrite foldl_app. Qed.

(** C10, as stated, fails: a warning that arrives through the
    file+element-name entry point is printed on the warning stream, yet the
    were-any-warnings-seen query still answers false. *)
Lemma pool_warning_not_flagged :
  let p := AddWarning_pool "a.proto" "pkg.M" "unused import" (Diag.new [] []) in
  clog p = ["a.proto: warning: unused import"] /\ FoundWarnings p = false.
Proof. split; reflexivity. Qed.

(** C10 (amended): a warning reported through the file+line+column entry
    point makes the were-any-warnings-seen query true; a warning reported
    through the file+element-name entry point is only printed and leaves the
    query's answer as it was; and both queries are monotonic over every
    sequence of reports, through whichever of the entry points they
    arrive. *)
Theorem flags_set_and_monotonic :
  (forall f l c m p, FoundWarnings (AddWarning f l c m p) = true) /\
  (forall f e m p, FoundWarnings (AddWarning_pool f e m p) = FoundWarnings p) /\
  (forall rs p, FoundErrors p = true -> FoundErrors (report_all rs p) = true) /\
  (forall rs p, FoundWarnings p = true -> FoundWarnings (report_all rs p) = true).
Proof.
  split; [|split; [|split]].
  - intros f l c m p. reflexivity.
  - intros f e m p. reflexivity.
  - intros rs. induction rs as [|r rs IH] using rev_ind; intros p H; [exact H|].
    rewrite report_all_snoc. apply report_errors_mono, IH, H.
  - intros rs. induction rs as [|r rs IH] using rev_ind; intros p H; [exact H|].
    rewrite report_all_snoc. apply report_warnings_mono, IH, H.
Qed.

Lemma flags_set_and_monotonic_witness :
  FoundErrors (report_all [StreamWarning 0 0 "w"; PoolError "a.proto" "M" "e"]
                 (AddError "a.proto" 2 4 "bad" (Diag.new [] []))) = true /\
  FoundWarnings (report_all [StreamError 0 0 "e"; PoolWarning "a.proto" "M" "w"]
                   (AddWarning "a.proto" 2 4 "odd" (Diag.new [] []))) = true.
Proof.
  split.
  - apply (proj1 (proj2 (proj2 flags_set_and_monotonic))). reflexivity.
  - apply (proj2 (proj2 (proj2 flags_set_and_monotonic))). reflexivity.
Defined.

End DiagFacts.

(** ** The path resolver *)

Module PathsFacts.

Import Paths.

(** The loop walks over a prefix of inputs that all map: the outcome is
    decided by the rest of the vector, and the prefix keeps its length. *)
Lemma make_inputs_relative_app t pre l err :
  Forall (maps t) pre ->
  exists pre',
    length pre' = length pre /\
    make_inputs_relative t (pre ++ l) err
    = (let '(ok, l', err') := make_inputs_relative t l err in (ok, pre' ++ l', err')).
Proof.
  induction 1 as [|x pre [v Hv] _ (pre' & Hlen & IH)].
  - exists []. split; [reflexivity|]. simpl.
    destruct (make_inputs_relative t l err) as [[? ?] ?]. reflexivity.
  - exists (v :: pre'). split; [simpl; now rewrite Hlen|].
    simpl. rewrite Hv, IH.
    destruct (make_inputs_relative t l err) as [[? ?] ?]. reflexivity.
Qed.

(** C8, as stated, fails for a path that cannot be opened: the literal
    interpretation would succeed here ([locked.proto] maps back to a disk
    file), but the resolver never tries it; it fails at once, and with the
    could-not-map diagnostic, not the not-within-any-search-path one. *)
Lemma cannot_open_not_reinterpreted :
  let t := mkDiskSourceTree (fun _ => CANNOT_OPEN "Permission denied" "EACCES")
                            (fun input => Some ("/p/" +:+ input)) in
  VirtualFileToDiskFile t "locked.proto" = Some "/p/locked.proto" /\
  make_inputs_relative t ["locked.proto"] []
  = (false, ["locked.proto"],
     ["Could not map to virtual file: locked.proto: Permission denied"]).
Proof. split; reflexivity. Qed.

(** C8 (amended): let [input] be the first input that does not map to a name
    under a search root.
    - If it does not reside under any search root ([NO_MAPPING]), the
      resolver interprets it literally as a logical name by asking whether
      it maps back to a disk file. If it does not, the resolver fails with
      the not-within-any-include-path diagnostic. If it does and [input] is
      the last input, the resolver succeeds, prints nothing and leaves the
      input as it is.
    - If it cannot be opened ([CANNOT_OPEN]), the resolver does not try the
      literal interpretation: it fails with the could-not-map diagnostic,
      which carries the source tree's last error message, or the system's
      error text when that message is empty.
    A diagnostic shows each string as [%s] prints it, up to its first NUL
    byte. *)
Theorem unmapped_input_resolution t pre input rest err :
  Forall (maps t) pre ->
  let '(ok, inputs', err') := make_inputs_relative t (pre ++ input :: rest) err in
  match DiskFileToVirtualFile t input with
  | NO_MAPPING =>
      match VirtualFileToDiskFile t input with
      | Some _ => rest = [] ->
                  ok = true /\ err' = err /\ inputs' !! length pre = Some input
      | None => ok = false /\ err' = err ++ [no_mapping_message (c_str input)]
      end
  | CANNOT_OPEN last_error system_error =>
      ok = false /\
      err' = err ++ [cannot_open_message (c_str input)
                       (c_str (if is_empty last_error then system_error else last_error))]
  | _ => True
  end.
Proof.
  intros Hpre.
  destruct (make_inputs_relative_app t pre (input :: rest) err Hpre)
    as (pre' & Hlen & ->).
  simpl.
  destruct (DiskFileToVirtualFile t input) eqn:Hm.
  - destruct (make_inputs_relative t rest err) as [[? ?] ?]. exact I.
  - exact I.
  - split; reflexivity.
  - destruct (VirtualFileToDiskFile t input).
    + intros _. split; [reflexivity|split; [reflexivity|]].
      rewrite lookup_app_r by lia. rewrite Hlen, Nat.sub_diag. reflexivity.
    + split; reflexivity.
Qed.

Lemma unmapped_input_resolution_witness :
  Forall (maps Demo.tree) ["/p/a.proto"] /\
  (make_inputs_relative Demo.tree ["/p/a.proto"; "b.proto"] []
   = (true, ["a.proto"; "b.proto"], [])) /\
  (let '(ok, inputs', err') :=
     make_inputs_relative Demo.tree (["/p/a.proto"] ++ "b.proto" :: []) [] in
   match DiskFileToVirtualFile Demo.tree "b.proto" with
   | NO_MAPPING =>
       match VirtualFileToDiskFile Demo.tree "b.proto" with
       | Some _ => ([] : list string) = [] ->
                   ok = true /\ err' = [] /\ inputs' !! 1%nat = Some "b.proto"
       | None => ok = false /\ err' = [] ++ [no_mapping_message (c_str "b.proto")]
       end
   | CANNOT_OPEN last_error system_error =>
       ok = false /\
       err' = [] ++ [cannot_open_message (c_str "b.proto")
                       (c_str (if is_empty last_error then system_error else last_error))]
   | _ => True
   end).
Proof.
  assert (Hpre : Forall (maps Demo.tree) ["/p/a.proto"]).
  { repeat constructor. exists "a.proto". reflexivity. }
  split; [exact Hpre|]. split; [reflexivity|].
  exact (unmapped_input_resolution Demo.tree ["/p/a.proto"] "b.proto" [] [] Hpre).
Defined.

(** An input with a NUL byte in it, outside every search root: the
    diagnostic shows it up to that byte. *)
Example unmapped_nul_demo :
  let input := "/x/" +:+ String Ascii.zero "d.proto" in
  make_inputs_relative Demo.tree [input] []
  = (false, [input], ["/x/: File does not reside within any include path."]).
Proof. reflexivity. Qed.

(** The two failing branches, run. *)
Example unmapped_demo :
  make_inputs_relative Demo.tree ["/p/a.proto"; "/p/locked.proto"; "/p/c.proto"] []
  = (false, ["a.proto"; "/p/locked.proto"; "/p/c.proto"],
     ["Could not map to virtual file: /p/locked.proto: Permission denied"]) /\
  make_inputs_relative Demo.tree ["/p/a.proto"; "/elsewhere/d.proto"] []
  = (false, ["a.proto"; "/elsewhere/d.proto"],
     ["/elsewhere/d.proto: File does not reside within any include path."]).
Proof. split; reflexivity. Qed.

End PathsFacts.

(** ** The stream over the caller's buffer *)

Module StreamFacts.

Import Int IntFacts Stream Caller.

Lemma Next_unfold {C} (impl : Buffer C) s ctx :
  let new_size := next_size (len s) (to_size (buffer_capacity impl ctx)) in
  let r := resize_buffer impl ctx new_size in
  Next impl s ctx
  = (mkRegion true (r.2 + len s) (to_int (to_size (new_size - len s))),
     mkBufferOutput r.2 new_size, r.1).
Proof.
  simpl. unfold Next.
  destruct (resize_buffer impl ctx _) as [ctx' b]. reflexivity.
Qed.

Lemma BackUp_unfold {C} (impl : Buffer C) count s ctx :
  let r := resize_buffer impl ctx (to_size (len s - count)) in
  BackUp impl count s ctx = (mkBufferOutput r.2 (len s), r.1).
Proof.
  simpl. unfold BackUp.
  destruct (resize_buffer impl ctx _) as [ctx' b]. reflexivity.
Qed.

(** Without wrap-around, [next_size] is the plain formula, it exceeds the
    old length, and by no more than [INT_MAX]. *)
Lemma next_size_spec old_size cur_cap :
  0 <= old_size < 2 ^ 63 ->
  next_size old_size cur_cap
  = Z.max (Z.min (if old_size <? cur_cap then cur_cap else 2 * old_size)
                 (old_size + INT_MAX)) 1024 /\
  0 < next_size old_size cur_cap - old_size <= INT_MAX.
Proof.
  intros H. unfold next_size.
  rewrite (to_size_small (old_size * 2)) by (unfold size_modulus; lia).
  rewrite (to_size_small (old_size + INT_MAX)) by (unfold size_modulus, INT_MAX; lia).
  rewrite (Z.mul_comm old_size 2).
  split; [reflexivity|].
  unfold INT_MAX. destruct (Z.ltb_spec old_size cur_cap); lia.
Qed.

(** C4: on every request for the next write region (with a length below
    [2^63], so that no [size_t] computation wraps), the target size is the
    capacity the caller reports if the committed length is below it, and
    twice the committed length otherwise, clamped to an increase of at most
    [INT_MAX] and raised to at least 1024; the caller is asked to resize to
    that target; the region handed out starts at the first unwritten byte
    ([base + len]) and its size is the target minus the previous length,
    which is positive and fits an [int]; on the very first request the
    target is at least 1024. *)
Theorem Next_region {C} (impl : Buffer C) (s : BufferOutput) (ctx : C) :
  0 <= len s < 2 ^ 63 ->
  0 <= buffer_capacity impl ctx < size_modulus ->
  let cur_cap := buffer_capacity impl ctx in
  let target :=
    Z.max (Z.min (if len s <? cur_cap then cur_cap else 2 * len s)
                 (len s + INT_MAX)) 1024 in
  let '(ctx', base) := resize_buffer impl ctx target in
  Next impl s ctx
  = (mkRegion true (base + len s) (target - len s), mkBufferOutput base target, ctx') /\
  0 < target - len s <= INT_MAX /\
  (len s = 0 -> 1024 <= target).
Proof.
  intros Hlen Hcap. simpl.
  rewrite Next_unfold. simpl.
  rewrite (to_size_small (buffer_capacity impl ctx)) by exact Hcap.
  destruct (next_size_spec (len s) (buffer_capacity impl ctx) Hlen) as [-> Hinc].
  set (target := Z.max _ 1024) in *.
  destruct (resize_buffer impl ctx target) as [ctx' base]. simpl.
  rewrite to_size_small by (unfold size_modulus, INT_MAX in *; lia).
  rewrite to_int_small by (unfold INT_MAX in *; lia).
  split; [reflexivity|]. split; [exact Hinc|]. intros _. subst target. lia.
Qed.

Lemma Next_region_witness :
  Next vec_buffer (mkBufferOutput 4096 1024) (mkVec (replicate 1024 Byte.x00) 1500 4096)
  = (mkRegion true 5120 476, mkBufferOutput 4096 1500,
     mkVec (replicate 1500 Byte.x00) 1500 4096) /\
  0 < 1500 - 1024 <= INT_MAX /\ ((1024 = 0) -> 1024 <= 1500).
Proof.
  assert (H1 : 0 <= len (mkBufferOutput 4096 1024) < 2 ^ 63) by (simpl; lia).
  assert (H2 : 0 <= buffer_capacity vec_buffer (mkVec (replicate 1024 Byte.x00) 1500 4096)
               < size_modulus) by (unfold size_modulus; simpl; lia).
  exact (Next_region vec_buffer (mkBufferOutput 4096 1024)
           (mkVec (replicate 1024 Byte.x00) 1500 4096) H1 H2).
Defined.

(** The first request on a fresh stream over an empty buffer: 1024 bytes. *)
Example Next_first :
  Next vec_buffer Stream.init Demo.empty_vec
  = (mkRegion true 4096 1024, mkBufferOutput 4096 1024,
     mkVec (replicate 1024 Byte.x00) 1024 4096).
Proof. reflexivity. Qed.

Lemma ByteCount_len s : 0 <= len s < 2 ^ 63 -> ByteCount s = len s.
Proof. intros H. unfold ByteCount. apply to_int64_small. lia. Qed.

(** [BackUp] asks the caller to resize to [len - count] and leaves [len]
    as it was. *)
Lemma BackUp_keeps_len {C} (impl : Buffer C) count s ctx :
  len (BackUp impl count s ctx).1 = len s /\
  (BackUp impl count s ctx).2 = (resize_buffer impl ctx (to_size (len s - count))).1.
Proof. rewrite BackUp_unfold. split; reflexivity. Qed.

(** C5 at a failing input: a first region of 1024 bytes is handed out, the
    client returns 1000 of them. The caller's buffer is cut to 24 bytes, but
    [ByteCount] still answers 1024; a further [Next] then starts its region
    at offset 1024 and leaves offsets 24..1023 unwritten inside the buffer. *)
Theorem BackUp_stale_length :
  let '(r1, s1, v1) := Next vec_buffer Stream.init Demo.empty_vec in
  let '(s2, v2) := BackUp vec_buffer 1000 s1 v1 in
  let '(r3, s3, v3) := Next vec_buffer s2 v2 in
  size r1 = 1024 /\
  length (bytes v2) = 24%nat /\
  ByteCount s2 = 1024 /\
  data r3 = base v3 + 1024.
Proof. vm_compute. repeat split; reflexivity. Qed.




Section faithful.
Context {C : Type} (impl : Buffer C) (view : C -> list Byte.byte) (address : C -> Z).
Context (Hf : Faithful impl view address).

(** A [Next] on a full region keeps what is written and opens a new,
    non-empty region behind it. *)
Lemma Next_written done co s ctx :
  written view address done co s ctx ->
  avail co = 0 ->
  Z.of_nat (length done) < 2 ^ 62 ->
  let '(r, s', ctx') := Next impl s ctx in
  ok r = true /\
  written view address done (mkCoded (data r) (size r) false) s' ctx' /\
  0 < size r.
Proof.
  intros [W1 W2 W3 W4 W5 W6 W7] Hav Hbound.
  rewrite Next_unfold. simpl.
  set (cap := to_size (buffer_capacity impl ctx)).
  assert (Hlen : len s = Z.of_nat (length done)) by lia.
  destruct (next_size_spec (len s) cap) as [_ Hinc]; [lia|].
  set (ns := next_size (len s) cap) in *.
  assert (Hns : 0 <= ns) by lia.
  pose proof (resize_address _ _ _ Hf ctx ns Hns) as Ra.
  pose proof (resize_length _ _ _ Hf ctx ns Hns) as Rl.
  pose proof (resize_keeps _ _ _ Hf ctx ns Hns) as Rk.
  destruct (resize_buffer impl ctx ns) as [ctx' base]. simpl in *.
  rewrite to_size_small by (unfold size_modulus, INT_MAX in *; lia).
  rewrite to_int_small by (unfold INT_MAX in *; lia).
  split; [reflexivity|]. split; [|lia].
  constructor; simpl.
  - lia.
  - exact Rl.
  - rewrite take_ge in Rk by lia.
    destruct Rk as [k Rk]. rewrite Rk.
    rewrite take_app_le by lia. exact W3.
  - lia.
  - lia.
  - lia.
  - reflexivity.
Qed.

(** Storing a chunk in the region at hand. *)
Lemma store_written done chunk co s ctx :
  written view address done co s ctx ->
  Z.of_nat (length chunk) <= avail co ->
  written view address (done ++ chunk)
          (mkCoded (cur co + Z.of_nat (length chunk))
                   (avail co - Z.of_nat (length chunk)) false)
          s (store impl ctx (cur co) chunk).
Proof.
  intros [W1 W2 W3 W4 W5 W6 W7] Hfit.
  assert (Hin : (length done + length chunk <= length (view ctx))%nat) by lia.
  pose proof (store_view _ _ _ Hf ctx (length done) chunk Hin) as Sv.
  rewrite <- W4 in Sv. rewrite W3 in Sv.
  constructor; simpl.
  - exact W1.
  - rewrite Sv. rewrite !length_app, length_drop. lia.
  - rewrite Sv. rewrite app_assoc. rewrite take_app_le by (rewrite length_app; lia).
    rewrite take_ge by lia. reflexivity.
  - rewrite (store_address _ _ _ Hf). rewrite length_app. lia.
  - rewrite length_app. lia.
  - lia.
  - reflexivity.
Qed.

Lemma write_raw_written fuel :
  forall bytes done co s ctx,
    written view address done co s ctx ->
    Z.of_nat (length done + length bytes) < 2 ^ 62 ->
    (2 * length bytes <= fuel + (if (0 <? avail co)%Z then 1 else 0))%nat ->
    exists co' s' ctx',
      write_raw impl fuel bytes co s ctx = Some (co', s', ctx') /\
      written view address (done ++ bytes) co' s' ctx'.
Proof.
  induction fuel as [|fuel IH]; intros bytes done co s ctx Hw Hbound Hfuel.
  - destruct bytes as [|b bytes].
    + exists co, s, ctx. split; [reflexivity|now rewrite app_nil_r].
    + simpl in Hfuel. destruct (0 <? avail co); lia.
  - destruct bytes as [|b bytes].
    { exists co, s, ctx. split; [reflexivity|now rewrite app_nil_r]. }
    cbn [write_raw].
    destruct (Z.ltb_spec 0 (avail co)) as [Hpos|Hzero].
    + set (k := Nat.min (Z.to_nat (avail co)) (length (b :: bytes))).
      assert (Hk : (1 <= k <= length (b :: bytes))%nat) by (simpl in *; lia).
      assert (Hk' : Z.of_nat k <= avail co) by lia.
      pose proof (store_written done (take k (b :: bytes)) co s ctx Hw) as Hs.
      rewrite length_take, Nat.min_l in Hs by lia. specialize (Hs Hk').
      destruct (IH (drop k (b :: bytes)) (done ++ take k (b :: bytes)) _ s _ Hs)
        as (co' & s' & ctx' & Hrun & Hw').
      * rewrite length_app, length_take, length_drop. lia.
      * rewrite length_drop. simpl in Hfuel.
        destruct (0 <? _); simpl in *; lia.
      * exists co', s', ctx'. split; [exact Hrun|].
        rewrite <- app_assoc, take_drop in Hw'. exact Hw'.
    + assert (Hav : avail co = 0) by (destruct Hw; lia).
      pose proof (Next_written done co s ctx Hw Hav) as Hn.
      destruct (Next impl s ctx) as [[r s1] c1].
      destruct Hn as (Hok & Hw1 & Hsize); [simpl in Hbound; lia|].
      rewrite Hok.
      destruct (IH (b :: bytes) done _ s1 c1 Hw1 Hbound) as (co' & s' & ctx' & Hrun & Hw').
      * simpl. destruct (Z.ltb_spec 0 (size r)); [|lia]. simpl in Hfuel. lia.
      * exists co', s', ctx'. split; [exact Hrun|exact Hw'].
Qed.

(** The whole life of the client: the caller is left with exactly the bytes
    that were written, whatever its buffer held or how large it was. *)
Lemma write_coded_view bytes ctx :
  Z.of_nat (length bytes) <= INT_MAX ->
  exists s' ctx',
    write_coded impl bytes Stream.init ctx = Some (true, s', ctx') /\
    view ctx' = bytes.
Proof.
  intros Hmax. unfold write_coded.
  assert (Hbound : Z.of_nat (length bytes) < 2 ^ 62) by (unfold INT_MAX in Hmax; lia).
  destruct (Z.ltb_spec INT_MAX (Z.of_nat (length bytes))) as [Hbig|_]; [lia|].
  pose proof (Next_unfold impl Stream.init ctx) as Hn. simpl in Hn.
  set (cap := to_size (buffer_capacity impl ctx)) in *.
  destruct (next_size_spec 0 cap) as [_ Hinc]; [lia|].
  set (ns := next_size 0 cap) in *.
  assert (Hns : 0 <= ns) by lia.
  pose proof (resize_address _ _ _ Hf ctx ns Hns) as Ra.
  pose proof (resize_length _ _ _ Hf ctx ns Hns) as Rl.
  rewrite Hn. clear Hn. simpl.
  destruct (resize_buffer impl ctx ns) as [c1 base]. simpl in *.
  rewrite to_size_small by (unfold size_modulus, INT_MAX in *; lia).
  rewrite to_int_small by (unfold INT_MAX in *; lia).
  assert (Hw : written view address []
                 (mkCoded (base + 0) (ns - 0) false) (mkBufferOutput base ns) c1).
  { constructor; simpl; [lia|exact Rl|reflexivity|lia|lia|lia|reflexivity]. }
  destruct (write_raw_written (2 * length bytes) bytes [] _ _ _ Hw)
    as (co & s2 & c2 & Hrun & Hw2).
  - simpl. lia.
  - simpl. destruct (Z.ltb_spec 0 (ns - 0)); lia.
  - change (length bytes + (length bytes + 0))%nat with (2 * length bytes)%nat.
    rewrite Hrun. simpl in Hw2. destruct Hw2 as [W1 W2 W3 W4 W5 W6 W7].
    rewrite W7.
    destruct (Z.ltb_spec 0 (avail co)) as [Hpos|Hzero].
    + rewrite BackUp_unfold. simpl.
      assert (Hsz : to_size (len s2 - avail co) = Z.of_nat (length bytes)).
      { rewrite to_size_small; unfold size_modulus; lia. }
      rewrite Hsz.
      pose proof (resize_length _ _ _ Hf c2 (Z.of_nat (length bytes)) (Nat2Z.is_nonneg _)) as Rl2.
      pose proof (resize_keeps _ _ _ Hf c2 (Z.of_nat (length bytes)) (Nat2Z.is_nonneg _)) as Rk2.
      rewrite Nat2Z.id in Rl2, Rk2. rewrite W3 in Rk2.
      eexists _, _. split; [reflexivity|].
      destruct Rk2 as [k Rk2]. rewrite Rk2 in Rl2 |- *.
      rewrite length_app in Rl2. destruct k; [now rewrite app_nil_r|simpl in Rl2; lia].
    + eexists _, _. split; [reflexivity|].
      rewrite <- W3. rewrite take_ge by lia. reflexivity.
Qed.

End faithful.

(** The byte vector keeps the contract. *)
Lemma vec_buffer_faithful : Faithful vec_buffer bytes base.
Proof.
  constructor; simpl.
  - reflexivity.
  - intros c n Hn. rewrite length_take, length_app, length_replicate. lia.
  - intros c n Hn. unfold resize. simpl.
    destruct (decide (Z.to_nat n <= length (bytes c))%nat).
    + rewrite take_app_le by lia. reflexivity.
    + rewrite take_app_ge by lia. rewrite (take_ge (bytes c)) by lia.
      now apply prefix_app_r.
  - intros c off bs Hin. unfold poke. simpl.
    replace (Z.to_nat (base c + Z.of_nat off - base c)) with off by lia. reflexivity.
  - reflexivity.
Qed.

End StreamFacts.

(** ** The import closure *)

Module ClosureFacts.

Import Closure.

Section closure.
Context (pool : gmap positive FileDescriptor).

Lemma unseen_shrinks (f : positive) (seen : gset positive) :
  is_Some (pool !! f) -> f ∉ seen ->
  (size (dom pool ∖ ({[f]} ∪ seen)) < size (dom pool ∖ seen))%nat.
Proof.
  intros Hf Hn. apply subset_size.
  apply elem_of_dom in Hf. set_solver.
Qed.

Lemma unseen_mono (seen seen' : gset positive) :
  seen ⊆ seen' -> (size (dom pool ∖ seen') <= size (dom pool ∖ seen))%nat.
Proof. intros H. apply subseteq_size. set_solver. Qed.

Lemma visit_order_total (Hclosed : closed pool) fuel :
  forall file seen order,
    is_Some (pool !! file) ->
    (size (dom pool ∖ seen) < fuel)%nat ->
    exists seen' order',
      visit_order pool fuel file (seen, order) = Some (seen', order') /\ seen ⊆ seen'.
Proof.
  induction fuel as [|fuel IH]; intros file seen order Hfile Hsize; [lia|].
  simpl. destruct (decide (file ∈ seen)) as [Hin|Hnin].
  { exists seen, order. split; [reflexivity|set_solver]. }
  destruct Hfile as [d Hd]. rewrite Hd.
  assert (Hloop : forall l s o,
            (forall x, x ∈ l -> is_Some (pool !! x)) ->
            (size (dom pool ∖ s) < fuel)%nat ->
            exists s' o', for_each (visit_order pool fuel) l (s, o) = Some (s', o') /\ s ⊆ s').
  { induction l as [|x l IHl]; intros s o Hl Hs.
    - exists s, o. split; [reflexivity|set_solver].
    - simpl.
      destruct (IH x s o) as (s1 & o1 & -> & Hsub1); [apply Hl; left|exact Hs|].
      destruct (IHl s1 o1) as (s2 & o2 & -> & Hsub2).
      + intros y Hy. apply Hl. now right.
      + pose proof (unseen_mono _ _ Hsub1). lia.
      + exists s2, o2. split; [reflexivity|set_solver]. }
  destruct (Hloop (dependency d) ({[file]} ∪ seen) order) as (s' & o' & -> & Hsub).
  - intros x Hx. apply (Hclosed file x). exists d. auto.
  - pose proof (unseen_shrinks file seen (ltac:(eauto)) Hnin). lia.
  - exists s', (o' ++ [file]). split; [reflexivity|set_solver].
Qed.

Lemma imports_first_app order new1 new2 :
  imports_first pool order new1 ->
  imports_first pool (order ++ new1) new2 ->
  imports_first pool order (new1 ++ new2).
Proof.
  intros H1 H2 i n d Hi He.
  destruct (decide (i < length new1)%nat) as [Hlt|Hge].
  - rewrite lookup_app_l in Hi by exact Hlt.
    rewrite take_app_le by lia. eapply H1; eauto.
  - rewrite lookup_app_r in Hi by lia.
    rewrite take_app_ge by lia. rewrite app_assoc. eapply H2; eauto.
Qed.

Lemma extends_nil seen order : extends pool [] seen order seen order [].
Proof.
  constructor; try set_solver.
  - now rewrite app_nil_r.
  - constructor.
  - intros _ _ i n d Hi. now rewrite lookup_nil in Hi.
Qed.

Lemma extends_cons x l seen order s1 o1 new1 s2 o2 new2 :
  extends pool [x] seen order s1 o1 new1 ->
  extends pool l s1 o1 s2 o2 new2 ->
  extends pool (x :: l) seen order s2 o2 (new1 ++ new2).
Proof.
  intros [E1 E2 E3 E4 E5 E6 E7 E8] [F1 F2 F3 F4 F5 F6 F7 F8].
  constructor.
  - rewrite F1, E1. now rewrite app_assoc.
  - rewrite F2, E2, list_to_set_app_L. set_solver.
  - apply NoDup_app. split; [exact E3|]. split; [|exact F3].
    intros n Hn1 Hn2. apply (F4 n Hn2). rewrite E2. set_solver.
  - intros n Hn. apply elem_of_app in Hn as [Hn|Hn]; [now apply E4|].
    intros Hs. apply (F4 n Hn). rewrite E2. set_solver.
  - intros r Hr. apply elem_of_cons in Hr as [->|Hr]; [|now apply F5].
    rewrite F2. apply elem_of_union_l. apply E5. set_solver.
  - intros n Hn. apply elem_of_app in Hn as [Hn|Hn].
    + destruct (E6 n Hn) as (r & Hr & Hreach). exists r. set_solver.
    + destruct (F6 n Hn) as (r & Hr & Hreach). exists r. set_solver.
  - intros n d Hn He. apply elem_of_app in Hn as [Hn|Hn]; [|eapply F7; eauto].
    rewrite F2. apply elem_of_union_l. eapply E7; eauto.
  - intros Hac Hstack. apply imports_first_app.
    + apply E8; [exact Hac|]. intros s r Hs Hno Hr. apply Hstack; set_solver.
    + rewrite <- E1. apply F8; [exact Hac|].
      intros s r Hs Hno Hr. apply Hstack; [| |set_solver].
      * rewrite E2 in Hs. apply elem_of_union in Hs as [Hs|Hs]; [exact Hs|].
        exfalso. apply Hno. rewrite E1. apply elem_of_app. right.
        now apply elem_of_list_to_set in Hs.
      * intros Ho. apply Hno. rewrite E1. apply elem_of_app. now left.
Qed.

Lemma extends_skip file seen order :
  file ∈ seen -> extends pool [file] seen order seen order [].
Proof.
  intros Hin. constructor; try set_solver.
  - now rewrite app_nil_r.
  - constructor.
  - intros _ _ i n d Hi. now rewrite lookup_nil in Hi.
Qed.

Lemma extends_visit file d seen order s2 o2 new2 :
  file ∉ seen -> pool !! file = Some d ->
  extends pool (dependency d) ({[file]} ∪ seen) order s2 o2 new2 ->
  extends pool [file] seen order s2 (o2 ++ [file]) (new2 ++ [file]).
Proof.
  intros Hnin Hd [F1 F2 F3 F4 F5 F6 F7 F8].
  assert (Hedge : forall x, x ∈ dependency d -> edge pool file x).
  { intros x Hx. exists d. auto. }
  assert (Hdeps : forall x, edge pool file x -> x ∈ dependency d).
  { intros x (d' & Hd' & Hx). congruence. }
  constructor.
  - rewrite F1. now rewrite app_assoc.
  - rewrite F2, list_to_set_app_L. set_solver.
  - apply NoDup_app. split; [exact F3|]. split; [|apply NoDup_singleton].
    intros n Hn1 Hn2. apply list_elem_of_singleton in Hn2 as ->.
    apply (F4 file Hn1). set_solver.
  - intros n Hn. apply elem_of_app in Hn as [Hn|Hn].
    + intros Hs. apply (F4 n Hn). set_solver.
    + apply list_elem_of_singleton in Hn as ->. exact Hnin.
  - intros r Hr. apply list_elem_of_singleton in Hr as ->. rewrite F2. set_solver.
  - intros n Hn. exists file. split; [set_solver|].
    apply elem_of_app in Hn as [Hn|Hn].
    + destruct (F6 n Hn) as (r & Hr & Hreach).
      eapply rtc_l; [apply Hedge, Hr|exact Hreach].
    + apply list_elem_of_singleton in Hn as ->. apply rtc_refl.
  - intros n x Hn He. apply elem_of_app in Hn as [Hn|Hn]; [eapply F7; eauto|].
    apply list_elem_of_singleton in Hn as ->. apply F5, Hdeps, He.
  - intros Hac Hstack.
    assert (Hin : forall s r, s ∈ ({[file]} ∪ seen : gset positive) -> s ∉ order ->
                              r ∈ dependency d -> tc (edge pool) s r).
    { intros s r Hs Hno Hr. apply elem_of_union in Hs as [Hs|Hs].
      - apply elem_of_singleton in Hs as ->. apply tc_once, Hedge, Hr.
      - eapply tc_r; [apply (Hstack s file Hs Hno); apply list_elem_of_here|apply Hedge, Hr]. }
    apply imports_first_app; [apply F8; assumption|].
    intros i n x Hi He. destruct i as [|i]; simpl in Hi; [|rewrite lookup_nil in Hi; discriminate].
    injection Hi as <-. simpl. rewrite app_nil_r.
    pose proof (F5 x (Hdeps x He)) as Hx. rewrite F2 in Hx.
    apply elem_of_union in Hx as [Hx|Hx].
    + destruct (decide (x ∈ order)) as [Ho|Ho]; [apply elem_of_app; now left|].
      exfalso. apply (Hac x).
      apply elem_of_union in Hx as [Hx|Hx].
      * apply elem_of_singleton in Hx as ->. now apply tc_once.
      * eapply tc_r; [apply (Hstack x file Hx Ho); apply list_elem_of_here|exact He].
    + apply elem_of_app. right. now apply elem_of_list_to_set in Hx.
Qed.

Lemma visit_order_extends fuel :
  forall file seen order seen' order',
    visit_order pool fuel file (seen, order) = Some (seen', order') ->
    exists new, extends pool [file] seen order seen' order' new.
Proof.
  induction fuel as [|fuel IH]; intros file seen order seen' order' Hrun; [discriminate|].
  simpl in Hrun. destruct (decide (file ∈ seen)) as [Hin|Hnin].
  { injection Hrun as <- <-. exists []. now apply extends_skip. }
  destruct (pool !! file) as [d|] eqn:Hd; [|discriminate].
  assert (Hloop : forall l s o s' o',
            for_each (visit_order pool fuel) l (s, o) = Some (s', o') ->
            exists new, extends pool l s o s' o' new).
  { induction l as [|x l IHl]; intros s o s' o' Hl; simpl in Hl.
    - injection Hl as <- <-. exists []. apply extends_nil.
    - destruct (visit_order pool fuel x (s, o)) as [[s1 o1]|] eqn:Hx; [|discriminate].
      destruct (IH _ _ _ _ _ Hx) as (new1 & H1).
      destruct (IHl _ _ _ _ Hl) as (new2 & H2).
      exists (new1 ++ new2). eapply extends_cons; eauto. }
  destruct (for_each _ _ _) as [[s2 o2]|] eqn:Hdeps; [|discriminate].
  injection Hrun as <- <-.
  destruct (Hloop _ _ _ _ _ Hdeps) as (new2 & H2).
  exists (new2 ++ [file]). eapply extends_visit; eauto.
Qed.

End closure.

Section batch.
Context (pool : gmap positive FileDescriptor).

Lemma option_Forall2_Some_r {A B} (R : A -> B -> Prop) o y :
  option_Forall2 R o (Some y) -> exists x, o = Some x /\ R x y.
Proof. inversion 1; eauto. Qed.

Lemma option_Forall2_None_r {A B} (R : A -> B -> Prop) o :
  option_Forall2 R o None -> o = None.
Proof. inversion 1; eauto. Qed.

Lemma for_each_in_step {X S T} (R : S -> T -> Prop)
    (f : X -> S -> option S) (g : X -> T -> option T) xs :
  (forall x s t, R s t -> option_Forall2 R (f x s) (g x t)) ->
  forall s t, R s t -> option_Forall2 R (for_each f xs s) (for_each g xs t).
Proof.
  intros Hstep. induction xs as [|x xs IH]; intros s t HR; simpl.
  - now constructor.
  - destruct (Hstep x s t HR) as [s' t' HR'|]; [now apply IH|constructor].
Qed.

Lemma get_transitive_deps_in_step ij isi out0 fuel :
  forall file st gt,
    in_step pool ij isi out0 st gt ->
    option_Forall2 (in_step pool ij isi out0)
      (get_transitive_deps pool fuel file ij isi st)
      (visit_order pool fuel file gt).
Proof.
  induction fuel as [|fuel IH]; intros file [seen out] [seen2 order] HR; [constructor|].
  destruct HR as [Hseen (ps & Hout & Hps)]. simpl in Hseen, Hout, Hps. subst seen2 out.
  simpl. destruct (decide (file ∈ seen)).
  { constructor. split; [reflexivity|]. exists ps. auto. }
  destruct (pool !! file) as [d|] eqn:Hd; [|constructor].
  assert (HR : in_step pool ij isi out0 ({[file]} ∪ seen, out0 ++ ps) ({[file]} ∪ seen, order)).
  { split; [reflexivity|]. exists ps. auto. }
  pose proof (for_each_in_step (in_step pool ij isi out0)
                (fun dep => get_transitive_deps pool fuel dep ij isi)
                (visit_order pool fuel) (dependency d) IH _ _ HR) as Hsim.
  destruct (for_each (visit_order pool fuel) (dependency d) ({[file]} ∪ seen, order))
    as [[s2 ord2]|].
  2: { apply option_Forall2_None_r in Hsim. rewrite Hsim. constructor. }
  apply option_Forall2_Some_r in Hsim as ([s1 o1] & -> & Hs & ps' & Ho & Hps').
  simpl in Hs, Ho, Hps'. subst s2 o1.
  constructor. split; [reflexivity|]. simpl.
  exists (ps' ++ [new_descriptor pool ij isi d]). split; [now rewrite app_assoc|].
  apply Forall2_app; [exact Hps'|]. constructor; [|constructor].
  exists d. auto.
Qed.

(** On a closed arena, enough fuel makes the recorded traversal of a batch
    return. *)
Lemma for_each_visit_total (Hclosed : closed pool) fuel l :
  (size (dom pool) < fuel)%nat ->
  (forall r, r ∈ l -> is_Some (pool !! r)) ->
  forall seen order, exists seen' order',
    for_each (visit_order pool fuel) l (seen, order) = Some (seen', order').
Proof.
  intros Hfuel. induction l as [|x l IH]; intros Hl seen order; simpl.
  - eauto.
  - destruct (visit_order_total pool Hclosed fuel x seen order) as (s1 & o1 & -> & _).
    + apply Hl. left.
    + assert (size (dom pool ∖ seen) <= size (dom pool))%nat
        by (apply subseteq_size; set_solver). lia.
    + apply IH. intros r Hr. apply Hl. now right.
Qed.

Lemma for_each_visit_extends fuel l :
  forall s o s' o',
    for_each (visit_order pool fuel) l (s, o) = Some (s', o') ->
    exists new, extends pool l s o s' o' new.
Proof.
  induction l as [|x l IHl]; intros s o s' o' Hl; simpl in Hl.
  - injection Hl as <- <-. exists []. apply extends_nil.
  - destruct (visit_order pool fuel x (s, o)) as [[s1 o1]|] eqn:Hx; [|discriminate].
    destruct (visit_order_extends pool _ _ _ _ _ _ Hx) as (new1 & H1).
    destruct (IHl _ _ _ _ Hl) as (new2 & H2).
    exists (new1 ++ new2). eapply extends_cons; eauto.
Qed.

(** What [build_file_set] returns on a closed arena: the records of a
    duplicate-free sequence of descriptors that holds exactly what the roots
    reach and, if the graph is acyclic, lists imports first. *)
Lemma build_file_set_spec roots :
  closed pool ->
  (forall r, r ∈ roots -> is_Some (pool !! r)) ->
  exists seen file_set order,
    build_file_set pool (enough_fuel pool) roots = Some (seen, file_set) /\
    Forall2 (proto_at pool true true) order file_set /\
    NoDup order /\
    (forall p, p ∈ order <-> exists r, r ∈ roots /\ rtc (edge pool) r p) /\
    (acyclic pool -> imports_first pool [] order).
Proof.
  intros Hclosed Hroots.
  destruct (for_each_visit_total Hclosed (enough_fuel pool) roots
              (Nat.lt_succ_diag_r _) Hroots ∅ []) as (seen & order & Hrun).
  assert (HR : in_step pool true true [] (∅, []) (∅, [])).
  { split; [reflexivity|]. exists []. split; [reflexivity|constructor]. }
  pose proof (for_each_in_step (in_step pool true true [])
                (fun parsed => get_transitive_deps pool (enough_fuel pool) parsed true true)
                (visit_order pool (enough_fuel pool)) roots
                (get_transitive_deps_in_step true true [] (enough_fuel pool)) _ _ HR) as Hsim.
  rewrite Hrun in Hsim. unfold build_file_set.
  apply option_Forall2_Some_r in Hsim as ([seen1 file_set] & -> & Hs & ps & Hps1 & Hps2).
  simpl in Hs, Hps1, Hps2. subst seen1 file_set.
  destruct (for_each_visit_extends _ _ _ _ _ _ Hrun) as (new & [E1 E2 E3 E4 E5 E6 E7 E8]).
  simpl in E1. subst new.
  exists seen, ps, order.
  split; [reflexivity|]. split; [exact Hps2|]. split; [exact E3|].
  split; [intros p; split|].
  - intros Hp. apply E6, Hp.
  - intros (r & Hr & Hreach).
    assert (Hin : r ∈ order).
    { apply E5 in Hr. rewrite E2 in Hr. set_solver. }
    clear Hr. induction Hreach as [|a b c Hab _ IH]; [exact Hin|].
    apply IH. pose proof (E7 a b Hin Hab) as Hb. rewrite E2 in Hb. set_solver.
  - intros Hac. apply E8; [exact Hac|]. intros s r Hs. set_solver.
Qed.

End batch.

(** Checkable forms of the two conditions on an arena. *)
Lemma closed_check (pool : gmap positive FileDescriptor) :
  map_Forall (fun _ d => Forall (fun q => is_Some (pool !! q)) (dependency d)) pool ->
  closed pool.
Proof.
  intros H a b (d & Hd & Hb).
  pose proof (H a d Hd) as Hall. rewrite Forall_forall in Hall. now apply Hall.
Qed.

Lemma acyclic_check (pool : gmap positive FileDescriptor) :
  map_Forall (fun a d => Forall (fun b => (a < b)%positive) (dependency d)) pool ->
  acyclic pool.
Proof.
  intros H.
  assert (Hlt : forall a b, tc (edge pool) a b -> (a < b)%positive).
  { induction 1 as [a b (d & Hd & Hb)|a b c (d & Hd & Hb) _ IH].
    - pose proof (H a d Hd) as Hall. rewrite Forall_forall in Hall. now apply Hall.
    - pose proof (H a d Hd) as Hall. rewrite Forall_forall in Hall.
      specialize (Hall b Hb). lia. }
  intros a Ha. apply Hlt in Ha. lia.
Qed.

(** C7: [get_transitive_deps] terminates on every finite dependency graph,
    cyclic or not: on an arena without dangling imports, a recursion depth of
    one more than the number of descriptors is always enough for the call to
    return, from any seen set and any output. The reason is the order of the
    two steps: the file enters the seen set before its imports are visited,
    and a call on a file that is already in the seen set returns at once,
    leaving the seen set and the output as they are. *)
Theorem get_transitive_deps_terminates
    (pool : gmap positive FileDescriptor) (file : positive) (ij isi : bool)
    (seen : gset positive) (out : list FileDescriptorProto) (fuel : nat) :
  closed pool ->
  is_Some (pool !! file) ->
  (enough_fuel pool <= fuel)%nat ->
  (exists seen' out',
     get_transitive_deps pool fuel file ij isi (seen, out) = Some (seen', out') /\
     seen ⊆ seen' /\ file ∈ seen') /\
  (file ∈ seen ->
   get_transitive_deps pool fuel file ij isi (seen, out) = Some (seen, out)).
Proof.
  intros Hclosed Hfile Hfuel. split.
  - destruct (visit_order_total pool Hclosed fuel file seen [] Hfile)
      as (seen' & order' & Hrun & Hsub).
    { assert (size (dom pool ∖ seen) <= size (dom pool))%nat
        by (apply subseteq_size; set_solver).
      unfold enough_fuel in Hfuel. lia. }
    assert (HR : in_step pool ij isi out (seen, out) (seen, [])).
    { split; [reflexivity|]. exists []. split; [now rewrite app_nil_r|constructor]. }
    pose proof (get_transitive_deps_in_step pool ij isi out fuel file _ _ HR) as Hsim.
    rewrite Hrun in Hsim.
    apply option_Forall2_Some_r in Hsim as ([s1 o1] & -> & Hs & _).
    simpl in Hs. subst s1.
    exists seen', o1. split; [reflexivity|]. split; [exact Hsub|].
    destruct (visit_order_extends pool _ _ _ _ _ _ Hrun) as (new & Hext).
    apply (ext_roots _ _ _ _ _ _ _ Hext). apply list_elem_of_here.
  - intros Hin. destruct fuel as [|fuel]; [unfold enough_fuel in Hfuel; lia|].
    simpl. destruct (decide (file ∈ seen)); [reflexivity|contradiction].
Qed.

(** The cyclic arena: [x.proto] and [y.proto] import each other. *)
Lemma get_transitive_deps_terminates_witness :
  (exists seen' out',
     get_transitive_deps Demo.cyclic_files 4 1%positive true true (∅, []) = Some (seen', out') /\
     ∅ ⊆ seen' /\ 1%positive ∈ seen') /\
  (1%positive ∈ (∅ : gset positive) ->
   get_transitive_deps Demo.cyclic_files 4 1%positive true true (∅, []) = Some (∅, [])).
Proof.
  apply get_transitive_deps_terminates.
  - apply closed_check. apply (bool_decide_unpack _). vm_compute. exact I.
  - vm_compute. eauto.
  - vm_compute. lia.
Defined.

(** C3: for every batch of resolved roots, the [FileDescriptorSet] that
    [write_descriptor_set] builds holds the records of exactly the
    descriptors that the roots reach through import edges, each once: the
    set is the image, record by record, of a duplicate-free sequence of
    descriptors whose members are the reachable ones. Nothing is assumed
    about how many roots or import paths lead to a descriptor, nor about
    cycles. *)
Theorem file_set_is_closure (pool : gmap positive FileDescriptor) (roots : list positive) :
  closed pool ->
  (forall r, r ∈ roots -> is_Some (pool !! r)) ->
  exists seen file_set order,
    build_file_set pool (enough_fuel pool) roots = Some (seen, file_set) /\
    Forall2 (proto_at pool true true) order file_set /\
    NoDup order /\
    (forall p, p ∈ order <-> exists r, r ∈ roots /\ rtc (edge pool) r p).
Proof.
  intros Hclosed Hroots.
  destruct (build_file_set_spec pool roots Hclosed Hroots)
    as (seen & file_set & order & H1 & H2 & H3 & H4 & _).
  exists seen, file_set, order. auto.
Qed.

Lemma roots_check (pool : gmap positive FileDescriptor) (roots : list positive) :
  Forall (fun r => is_Some (pool !! r)) roots ->
  forall r, r ∈ roots -> is_Some (pool !! r).
Proof. intros H. now apply Forall_forall. Qed.

(** Two roots, the second reachable from the first, and [c.proto] reachable
    along three paths. *)
Lemma file_set_is_closure_witness :
  exists seen file_set order,
    build_file_set Demo.files (enough_fuel Demo.files) [1%positive; 2%positive]
    = Some (seen, file_set) /\
    Forall2 (proto_at Demo.files true true) order file_set /\
    NoDup order /\
    (forall p, p ∈ order <->
               exists r, r ∈ [1%positive; 2%positive] /\ rtc (edge Demo.files) r p).
Proof.
  apply file_set_is_closure.
  - apply closed_check. apply (bool_decide_unpack _). vm_compute. exact I.
  - apply roots_check. apply (bool_decide_unpack _). vm_compute. exact I.
Defined.

(** C2: for every acyclic dependency graph, in the sequence that running
    [get_transitive_deps] over the batch of roots produces, every import of a
    node sits at a strictly smaller index than the node. This holds of the
    descriptors the records were copied from, and of the records themselves:
    every name in a record's dependency list is the name of an earlier
    record. *)
Theorem file_set_imports_first (pool : gmap positive FileDescriptor) (roots : list positive) :
  acyclic pool ->
  closed pool ->
  (forall r, r ∈ roots -> is_Some (pool !! r)) ->
  exists seen file_set order,
    build_file_set pool (enough_fuel pool) roots = Some (seen, file_set) /\
    Forall2 (proto_at pool true true) order file_set /\
    (forall i N d, order !! i = Some N -> edge pool N d ->
                   exists j, (j < i)%nat /\ order !! j = Some d) /\
    (forall i r dep_name, file_set !! i = Some r -> dep_name ∈ proto_dependency r ->
                          exists j r', (j < i)%nat /\ file_set !! j = Some r' /\
                                       proto_name r' = dep_name).
Proof.
  intros Hac Hclosed Hroots.
  destruct (build_file_set_spec pool roots Hclosed Hroots)
    as (seen & file_set & order & H1 & H2 & H3 & H4 & H5).
  specialize (H5 Hac).
  assert (Hidx : forall i N d, order !! i = Some N -> edge pool N d ->
                               exists j, (j < i)%nat /\ order !! j = Some d).
  { intros i N d Hi He. specialize (H5 i N d Hi He). simpl in H5.
    apply elem_of_take in H5 as (j & Hj & Hlt). eauto. }
  exists seen, file_set, order. split; [exact H1|]. split; [exact H2|].
  split; [exact Hidx|].
  intros i r dep_name Hi Hdep.
  destruct (Forall2_lookup_r _ _ _ _ _ H2 Hi) as (N & HN & (d & Hd & ->)).
  assert (Hdeps : proto_dependency (new_descriptor pool true true d)
                  = name_of pool <$> dependency d) by reflexivity.
  rewrite Hdeps in Hdep. apply list_elem_of_fmap in Hdep as (q & -> & Hq).
  destruct (Hidx i N q HN) as (j & Hlt & Hj); [exists d; auto|].
  destruct (Forall2_lookup_l _ _ _ _ _ H2 Hj) as (r' & Hr' & (d' & Hd' & ->)).
  exists j, (new_descriptor pool true true d'). split; [exact Hlt|]. split; [exact Hr'|].
  unfold name_of. rewrite Hd'. reflexivity.
Qed.

Lemma file_set_imports_first_witness :
  exists seen file_set order,
    build_file_set Demo.files (enough_fuel Demo.files) [2%positive; 1%positive]
    = Some (seen, file_set) /\
    Forall2 (proto_at Demo.files true true) order file_set /\
    (forall i N d, order !! i = Some N -> edge Demo.files N d ->
                   exists j, (j < i)%nat /\ order !! j = Some d) /\
    (forall i r dep_name, file_set !! i = Some r -> dep_name ∈ proto_dependency r ->
                          exists j r', (j < i)%nat /\ file_set !! j = Some r' /\
                                       proto_name r' = dep_name).
Proof.
  apply file_set_imports_first.
  - apply acyclic_check. apply (bool_decide_unpack _). vm_compute. exact I.
  - apply closed_check. apply (bool_decide_unpack _). vm_compute. exact I.
  - apply roots_check. apply (bool_decide_unpack _). vm_compute. exact I.
Defined.

(** The batch [a.proto], [b.proto] on the demo arena. *)
Example file_set_demo :
  (fun r => match r with Some (_, l) => Some (proto_name <$> l) | None => None end)
    (build_file_set Demo.files (enough_fuel Demo.files) [1%positive; 2%positive])
  = Some ["c.proto"; "b.proto"; "a.proto"].
Proof. vm_compute. reflexivity. Qed.

End ClosureFacts.

(** ** The entry point *)

Module BridgeFacts.

Import Int IntFacts Diag Paths Closure Stream Caller Bridge StreamFacts ClosureFacts.

(** *** Diagnostics of the front end *)

Lemma make_inputs_relative_err t l err :
  make_inputs_relative t l err
  = (let '(ok, l', msgs) := make_inputs_relative t l [] in (ok, l', err ++ msgs)).
Proof.
  induction l as [|x l IH]; simpl.
  - now rewrite app_nil_r.
  - destruct (DiskFileToVirtualFile t x); try reflexivity.
    + rewrite IH. destruct (make_inputs_relative t l []) as [[? ?] ?]. reflexivity.
    + destruct (VirtualFileToDiskFile t x); [now rewrite app_nil_r|reflexivity].
Qed.

Lemma report_cerr r p : cerr p `prefix_of` cerr (report r p).
Proof. destruct r; simpl; first [reflexivity | now apply prefix_app_r]. Qed.

Lemma report_all_cerr rs p : cerr p `prefix_of` cerr (report_all rs p).
Proof.
  induction rs as [|r rs IH] using rev_ind; [reflexivity|].
  rewrite DiagFacts.report_all_snoc. etrans; [exact IH|apply report_cerr].
Qed.

Lemma report_names_file file r p :
  names_file file r ->
  exists line, line ∈ cerr (report r p) /\ starts_with file line.
Proof.
  destruct r as [f l c m|f l c m|l c m|l c m|f e m|f e m]; simpl; try contradiction.
  - intros ->. eexists. split; [apply elem_of_app; right; apply list_elem_of_here|].
    unfold format. simpl. eexists. reflexivity.
  - intros ->. eexists. split; [apply elem_of_app; right; apply list_elem_of_here|].
    unfold format. simpl. eexists. reflexivity.
Qed.

Lemma report_all_names_file file rs p :
  Exists (names_file file) rs ->
  exists line, line ∈ cerr (report_all rs p) /\ starts_with file line.
Proof.
  induction rs as [|r rs IH] using rev_ind; intros Hex.
  - now apply Exists_nil in Hex.
  - rewrite DiagFacts.report_all_snoc.
    apply Exists_app in Hex as [Hex|Hex].
    + destruct (IH Hex) as (line & Hin & Hst). exists line. split; [|exact Hst].
      destruct (report_cerr r (report_all rs p)) as [k ->].
      apply elem_of_app. now left.
    + apply Exists_cons in Hex as [Hex|Hex]; [|now apply Exists_nil in Hex].
      now apply report_names_file.
Qed.

(** *** [parse_input_files] *)

Lemma parse_input_files_roots find l :
  forall acc ec ec',
    (parse_input_files find l acc ec).1 = (parse_input_files find l acc ec').1.
Proof.
  induction l as [|x l IH]; intros acc ec ec'; simpl; [reflexivity|].
  destruct (find x) as [[f|] rs]; [apply IH|reflexivity].
Qed.

Lemma parse_input_files_found find l :
  forall acc ec parsed ec',
    parse_input_files find l acc ec = (true, parsed, ec') ->
    forall f, f ∈ parsed -> f ∈ acc \/ exists input, input ∈ l /\ (find input).1 = Some f.
Proof.
  induction l as [|x l IH]; intros acc ec parsed ec' Hrun f Hf; simpl in Hrun.
  - inversion Hrun; subst. now left.
  - destruct (find x) as [[g|] rs] eqn:Hx; [|discriminate].
    destruct (IH _ _ _ _ Hrun f Hf) as [Hacc|(input & Hin & Hfound)].
    + apply elem_of_app in Hacc as [Hacc|Hacc]; [now left|].
      apply list_elem_of_singleton in Hacc as ->.
      right. exists x. split; [left|]. now rewrite Hx.
    + right. exists input. split; [now right|exact Hfound].
Qed.

(** A lookup that fails stops the loop; the collector has by then received
    what the failing lookup reported. *)
Lemma parse_input_files_unresolved find l :
  (forall input, (find input).1 = None -> Exists (names_file input) (find input).2) ->
  Exists (fun input => (find input).1 = None) l ->
  forall acc ec,
    exists parsed ec',
      parse_input_files find l acc ec = (false, parsed, ec') /\
      cerr ec `prefix_of` cerr ec' /\
      exists file line, file ∈ l /\ (find file).1 = None /\
                        line ∈ cerr ec' /\ starts_with file line.
Proof.
  intros Hrep. induction l as [|x l IH]; intros Hex acc ec.
  - now apply Exists_nil in Hex.
  - simpl. destruct (find x) as [[f|] rs] eqn:Hx.
    + apply Exists_cons in Hex as [Hex|Hex]; [rewrite Hx in Hex; discriminate|].
      destruct (IH Hex (acc ++ [f]) (report_all rs ec))
        as (parsed & ec' & -> & Hpre & file & line & Hin & Hnone & Hline & Hst).
      exists parsed, ec'. split; [reflexivity|].
      split; [etrans; [apply report_all_cerr|exact Hpre]|].
      exists file, line. split; [now right|]. auto.
    + exists acc, (report_all rs ec). split; [reflexivity|].
      split; [apply report_all_cerr|].
      pose proof (Hrep x) as Hr. rewrite Hx in Hr. specialize (Hr eq_refl).
      destruct (report_all_names_file x rs ec Hr) as (line & Hline & Hst).
      exists x, line. split; [left|]. rewrite Hx. auto.
Qed.

(** *** The exported function *)

Lemma write_descriptor_set_c_unfold {C} pb layout inputs includes
    (impl : Buffer C) ctx err log :
  write_descriptor_set_c pb layout inputs includes impl ctx err log
  = match front_end pb inputs includes err log with
    | (None, e, l) => Some (mkOutcome 1 ctx e l)
    | (Some parsed, e, l) =>
        match write_descriptor_set pb (arena pb includes) layout parsed impl ctx with
        | None => None
        | Some (ok, ctx') => Some (mkOutcome (if ok then 0 else 1) ctx' e l)
        end
    end.
Proof.
  unfold write_descriptor_set_c, front_end.
  destruct (make_inputs_relative _ inputs err) as [[[|] inputs'] err']; simpl; [|reflexivity].
  destruct (parse_input_files _ inputs' [] _) as [[[|] parsed] ec]; reflexivity.
Qed.

Lemma front_end_roots pb inputs includes err log err' log' :
  (front_end pb inputs includes err log).1.1 = (front_end pb inputs includes err' log').1.1.
Proof.
  unfold front_end.
  rewrite (make_inputs_relative_err _ inputs err), (make_inputs_relative_err _ inputs err').
  destruct (make_inputs_relative _ inputs []) as [[[|] inputs'] msgs]; simpl; [|reflexivity].
  pose proof (parse_input_files_roots (FindFileByName pb includes) inputs' []
                (Diag.new (err ++ msgs) log) (Diag.new (err' ++ msgs) log')) as Hp.
  destruct (parse_input_files _ inputs' [] (Diag.new (err ++ msgs) log)) as [[ok1 p1] ec1].
  destruct (parse_input_files _ inputs' [] (Diag.new (err' ++ msgs) log')) as [[ok2 p2] ec2].
  simpl in Hp. injection Hp as -> ->. destruct ok2; reflexivity.
Qed.

Lemma front_end_in_arena pb inputs includes err log parsed :
  pool_ok pb includes ->
  (front_end pb inputs includes err log).1.1 = Some parsed ->
  forall r, r ∈ parsed -> is_Some (arena pb includes !! r).
Proof.
  intros [_ Hfind]. unfold front_end.
  destruct (make_inputs_relative _ inputs err) as [[[|] inputs'] err']; simpl; [|discriminate].
  destruct (parse_input_files _ inputs' [] _) as [[[|] p] ec] eqn:Hp; simpl; [|discriminate].
  intros [= <-] r Hr.
  destruct (parse_input_files_found _ _ _ _ _ _ Hp r Hr) as [Hacc|(input & _ & Hfound)].
  - now apply elem_of_nil in Hacc.
  - eapply Hfind; eauto.
Qed.

(** The writer, on a buffer that keeps its contract: it succeeds and leaves
    the caller with the deterministic encoding of the file set. *)
Lemma write_descriptor_set_view {C} pb (impl : Buffer C) view address pool layout parsed ctx
    seen file_set :
  Faithful impl view address ->
  build_file_set pool (enough_fuel pool) parsed = Some (seen, file_set) ->
  Z.of_nat (length (SerializeToBytes pb true layout file_set)) <= INT_MAX ->
  exists ctx',
    write_descriptor_set pb pool layout parsed impl ctx = Some (true, ctx') /\
    view ctx' = SerializeToBytes pb true layout file_set.
Proof.
  intros Hf Hbuild Hbound. unfold write_descriptor_set. rewrite Hbuild.
  destruct (write_coded_view impl view address Hf _ ctx Hbound) as (s' & ctx' & -> & Hview).
  exists ctx'. auto.
Qed.

(** C1: for every fixed list of search roots and requested input files, two
    invocations of the exported function leave byte-identical artifacts in
    the caller's buffer. The two calls may differ in everything that is not a
    logical input: what the buffer held and how much capacity it had (the
    second call may reuse the buffer the first one filled), what the
    diagnostic streams already carried, and the layout choices that the
    encoder would be free to make had determinism not been requested. Both
    calls return the same status; on success both buffers hold the same
    bytes; on failure neither buffer was touched. Assumed: the caller's
    buffer keeps its contract, libprotobuf honours the determinism request,
    the pool has no dangling import, and the encoding stays within the
    message size that libprotobuf accepts. *)
Theorem rerun_reproduces_artifact {C} (pb : Protobuf) (impl : Buffer C)
    (view : C -> list Byte.byte) (address : C -> Z)
    (input_files includes_paths : list string) :
  Faithful impl view address ->
  deterministic_encoder pb ->
  pool_ok pb includes_paths ->
  encoding_fits pb input_files includes_paths ->
  forall layout1 layout2 ctx1 ctx2 err1 log1 err2 log2,
  exists o1 o2,
    write_descriptor_set_c pb layout1 input_files includes_paths impl ctx1 err1 log1 = Some o1 /\
    write_descriptor_set_c pb layout2 input_files includes_paths impl ctx2 err2 log2 = Some o2 /\
    status o1 = status o2 /\
    (status o1 = 0 -> view (buffer o1) = view (buffer o2)) /\
    (status o1 <> 0 -> buffer o1 = ctx1 /\ buffer o2 = ctx2).
Proof.
  intros Hf Hdet Hpool Hfits layout1 layout2 ctx1 ctx2 err1 log1 err2 log2.
  rewrite !write_descriptor_set_c_unfold.
  pose proof (front_end_roots pb input_files includes_paths err1 log1 err2 log2) as Hroots.
  pose proof (front_end_in_arena pb input_files includes_paths err1 log1) as Harena.
  pose proof (Hfits err1 log1) as Hfit.
  destruct (front_end pb input_files includes_paths err1 log1) as [[[parsed|] e1] l1];
    destruct (front_end pb input_files includes_paths err2 log2) as [[[parsed2|] e2] l2];
    simpl in Hroots; try discriminate.
  - injection Hroots as <-.
    destruct (build_file_set_spec (arena pb includes_paths) parsed (proj1 Hpool)
                (Harena parsed Hpool eq_refl))
      as (seen & file_set & order & Hbuild & _).
    destruct (write_descriptor_set_view pb impl view address _ layout1 parsed ctx1
                seen file_set Hf Hbuild (Hfit parsed seen file_set layout1 eq_refl Hbuild))
      as (c1 & -> & Hv1).
    destruct (write_descriptor_set_view pb impl view address _ layout2 parsed ctx2
                seen file_set Hf Hbuild (Hfit parsed seen file_set layout2 eq_refl Hbuild))
      as (c2 & -> & Hv2).
    eexists _, _. split; [reflexivity|]. split; [reflexivity|]. simpl.
    split; [reflexivity|]. split; [|intros H; now contradiction H].
    intros _. rewrite Hv1, Hv2. apply Hdet.
  - eexists _, _. split; [reflexivity|]. split; [reflexivity|]. simpl.
    split; [reflexivity|]. split; [discriminate|]. auto.
Qed.

Lemma demo_pool_ok includes : pool_ok Demo.protobuf includes.
Proof.
  split.
  - apply closed_check. apply (bool_decide_unpack _). vm_compute. exact I.
  - intros input f. simpl. unfold Demo.find_file, Demo.lookup_name.
    destruct (String.eqb input "a.proto"); [simpl; intros [= <-]; vm_compute; eauto|].
    destruct (String.eqb input "b.proto"); [simpl; intros [= <-]; vm_compute; eauto|].
    destruct (String.eqb input "c.proto"); [simpl; intros [= <-]; vm_compute; eauto|].
    discriminate.
Qed.

Lemma demo_deterministic : deterministic_encoder Demo.protobuf.
Proof. intros l1 l2 file_set. reflexivity. Qed.

Lemma demo_encoding_fits : encoding_fits Demo.protobuf ["/p/a.proto"; "/p/b.proto"] ["/p"].
Proof.
  intros err log parsed seen file_set layout Hfront Hbuild.
  rewrite (front_end_roots _ _ _ err log [] []) in Hfront.
  vm_compute in Hfront. injection Hfront as <-.
  vm_compute in Hbuild. injection Hbuild as <- <-.
  apply Z.leb_le. vm_compute. reflexivity.
Qed.

(** Both roots given; the first call on an empty vector, the second on a
    vector that already holds bytes and spare capacity, with another layout
    and with text already on the error stream. *)
Lemma rerun_reproduces_artifact_witness :
  exists o1 o2,
    write_descriptor_set_c Demo.protobuf 7 ["/p/a.proto"; "/p/b.proto"] ["/p"]
      vec_buffer Demo.empty_vec [] [] = Some o1 /\
    write_descriptor_set_c Demo.protobuf 8 ["/p/a.proto"; "/p/b.proto"] ["/p"]
      vec_buffer (mkVec [Byte.x01; Byte.x02] 5000 8192) ["earlier line"] [] = Some o2 /\
    status o1 = status o2 /\
    (status o1 = 0 -> bytes (buffer o1) = bytes (buffer o2)) /\
    (status o1 <> 0 ->
     buffer o1 = Demo.empty_vec /\ buffer o2 = mkVec [Byte.x01; Byte.x02] 5000 8192).
Proof.
  exact (rerun_reproduces_artifact Demo.protobuf vec_buffer bytes base
           ["/p/a.proto"; "/p/b.proto"] ["/p"]
           vec_buffer_faithful demo_deterministic (demo_pool_ok ["/p"]) demo_encoding_fits
           7 8 Demo.empty_vec (mkVec [Byte.x01; Byte.x02] 5000 8192)
           [] [] ["earlier line"] []).
Defined.

(** Two calls in a row on the demo file system; the second finds the
    buffer as the first left it. *)
Example rerun_demo :
  let run ctx := write_descriptor_set_c Demo.protobuf 7 ["/p/a.proto"] ["/p"]
                   vec_buffer ctx [] [] in
  match run Demo.empty_vec with
  | Some o1 =>
      status o1 = 0 /\
      bytes (buffer o1)
      = Demo.encode_name "c.proto" ++ Demo.encode_name "b.proto" ++ Demo.encode_name "a.proto" /\
      match run (buffer o1) with
      | Some o2 => status o2 = 0 /\ bytes (buffer o2) = bytes (buffer o1)
      | None => False
      end
  | None => False
  end.
Proof. vm_compute. repeat split; reflexivity. Qed.

(** C6, as stated, fails: the caller's resize callback returns the null
    pointer, yet the write-region request does not fail. [Next] reports
    success and hands out the region at the null pointer. *)
Lemma null_base_not_detected :
  let '(r, s, calls) := Next failing_buffer Stream.init [] in
  ok r = true /\ data r = 0 /\ buffer_base s = 0 /\ calls = [Resized 1024].
Proof. vm_compute. repeat split; reflexivity. Qed.

(** C6 (amended): a resize operation that cannot satisfy the request is not
    detected by the write-region request. [Next] checks nothing: for every
    callback, every state and every base address the callback returns, the
    null pointer included, it returns [true], stores the address as the
    buffer's base and hands out the region that starts [len] bytes behind
    it. *)
Theorem resize_failure_undetected {C} (impl : Buffer C) (s : BufferOutput) (ctx : C) :
  let '(r, s', ctx') := Next impl s ctx in
  let new_size := next_size (len s) (to_size (buffer_capacity impl ctx)) in
  ok r = true /\
  buffer_base s' = (resize_buffer impl ctx new_size).2 /\
  data r = (resize_buffer impl ctx new_size).2 + len s /\
  ctx' = (resize_buffer impl ctx new_size).1.
Proof. rewrite Next_unfold. simpl. auto. Qed.

(** C9: if the lookup of a requested logical name returns not-found, the
    exported function returns status 1 and hands the caller's buffer state
    back exactly as it received it: neither callback was invoked, whatever
    the callbacks are. The error stream keeps all it held before and, when
    path resolution went through so that the resolution service was asked,
    carries a line that starts with the name of a file whose lookup failed
    (the first such file: the loop stops there). Assumed of the resolution
    service: a failed lookup reports at least one error carrying the
    requested file's name to the registered collector. *)
Theorem unresolved_input_fails {C} (pb : Protobuf) (impl : Buffer C) (layout : Z)
    (input_files includes_paths : list string) (ctx : C) (err log : list string)
    (resolved : bool) (names : list string) (err' : list string) :
  reports_failures pb includes_paths ->
  make_inputs_relative (source_tree pb includes_paths) input_files err
  = (resolved, names, err') ->
  Exists (fun name => (FindFileByName pb includes_paths name).1 = None) names ->
  exists o,
    write_descriptor_set_c pb layout input_files includes_paths impl ctx err log = Some o /\
    status o = 1 /\
    buffer o = ctx /\
    err `prefix_of` stderr o /\
    (resolved = true ->
     exists file line,
       file ∈ names /\ (FindFileByName pb includes_paths file).1 = None /\
       line ∈ stderr o /\ starts_with file line).
Proof.
  intros Hrep Hpaths Hex. unfold write_descriptor_set_c. rewrite Hpaths.
  assert (Herr : err `prefix_of` err').
  { rewrite make_inputs_relative_err in Hpaths.
    destruct (make_inputs_relative _ input_files []) as [[? ?] msgs].
    injection Hpaths as _ _ <-. now apply prefix_app_r. }
  destruct resolved; simpl.
  - destruct (parse_input_files_unresolved (FindFileByName pb includes_paths) names Hrep Hex
                [] (Diag.new err' log))
      as (parsed & ec' & -> & Hpre & file & line & Hin & Hnone & Hline & Hst).
    simpl. eexists. split; [reflexivity|]. simpl.
    split; [reflexivity|]. split; [reflexivity|]. split.
    + etrans; [exact Herr|exact Hpre].
    + intros _. exists file, line. auto.
  - eexists. split; [reflexivity|]. simpl.
    split; [reflexivity|]. split; [reflexivity|]. split; [exact Herr|discriminate].
Qed.

Lemma demo_reports_failures includes : reports_failures Demo.protobuf includes.
Proof.
  intros input. simpl. unfold Demo.find_file.
  destruct (Demo.lookup_name input); [discriminate|].
  intros _. constructor. simpl. destruct (String.eqb input _); reflexivity.
Qed.

(** [broken.proto] is on disk but does not parse; it is asked for after a
    file that resolves. The caller logs every resize request and any store
    through what it returned, and its log stays empty. *)
Lemma unresolved_input_fails_witness :
  exists o,
    write_descriptor_set_c Demo.protobuf 0
      ["/p/a.proto"; "/p/broken.proto"; "/p/c.proto"] ["/p"]
      failing_buffer [] [] [] = Some o /\
    status o = 1 /\
    buffer o = [] /\
    [] `prefix_of` stderr o /\
    (true = true ->
     exists file line,
       file ∈ ["a.proto"; "broken.proto"; "c.proto"] /\
       (FindFileByName Demo.protobuf ["/p"] file).1 = None /\
       line ∈ stderr o /\ starts_with file line).
Proof.
  apply (unresolved_input_fails Demo.protobuf failing_buffer 0
           ["/p/a.proto"; "/p/broken.proto"; "/p/c.proto"] ["/p"] [] [] []
           true ["a.proto"; "broken.proto"; "c.proto"] []).
  - apply demo_reports_failures.
  - reflexivity.
  - apply (bool_decide_unpack _). vm_compute. exact I.
Defined.

(** The same call, run: one line on the error stream, nothing else. *)
Example unresolved_demo :
  write_descriptor_set_c Demo.protobuf 0
    ["/p/a.proto"; "/p/broken.proto"; "/p/c.proto"] ["/p"] failing_buffer [] [] []
  = Some (mkOutcome 1 []
            ["broken.proto:3:8: Expected top-level statement (e.g. message)."] []).
Proof. vm_compute. reflexivity. Qed.

End BridgeFacts.

(** * Further properties *)

(** ** The diagnostics collector *)

Module DiagExtra.

Import Diag Derived.






Lemma report_flags r p :
  FoundErrors (report r p) = FoundErrors p || raises_found_errors r /\
  FoundWarnings (report r p) = FoundWarnings p || raises_found_warnings r.
Proof.
  destruct r; unfold FoundErrors, FoundWarnings; simpl;
    rewrite ?orb_true_r, ?orb_false_r; split; reflexivity.
Qed.

(** The two queries after any sequence of reports: errors were found iff
    they had been found before or one arrived through the file+line+column
    or the line+column interface; warnings were found iff they had been
    found before or one arrived through the file+line+column interface. *)
Theorem report_all_flags rs p :
  FoundErrors (report_all rs p) = FoundErrors p || existsb raises_found_errors rs /\
  FoundWarnings (report_all rs p) = FoundWarnings p || existsb raises_found_warnings rs.
Proof.
  induction rs as [|r rs [IH1 IH2]] using rev_ind.
  - simpl. now rewrite !orb_false_r.
  - rewrite DiagFacts.report_all_snoc.
    destruct (report_flags r (report_all rs p)) as [-> ->].
    rewrite IH1, IH2, !existsb_app. simpl. rewrite !orb_false_r, !orb_assoc.
    split; reflexivity.
Qed.

End DiagExtra.

(** ** The path resolver and the root lookup *)

Module PathsExtra.

Import Diag Paths Bridge Derived.

(** The loop over a prefix of inputs that map: each is replaced by its
    logical name, and the rest of the vector decides the outcome. *)
Lemma make_inputs_relative_mapped t pre vs l err :
  Forall2 (maps_to t) pre vs ->
  make_inputs_relative t (pre ++ l) err
  = (let '(ok, l', err') := make_inputs_relative t l err in (ok, vs ++ l', err')).
Proof.
  induction 1 as [|x v pre vs Hx _ IH]; simpl.
  - destruct (make_inputs_relative t l err) as [[? ?] ?]. reflexivity.
  - unfold maps_to in Hx. rewrite Hx, IH.
    destruct (make_inputs_relative t l err) as [[? ?] ?]. reflexivity.
Qed.

(** When every input maps under a search root, the resolver succeeds,
    replaces each input by its logical name, in place and in order, and
    prints nothing. *)
Theorem all_inputs_mapped t inputs vs err :
  Forall2 (maps_to t) inputs vs ->
  make_inputs_relative t inputs err = (true, vs, err).
Proof.
  intros H. pose proof (make_inputs_relative_mapped t inputs vs [] err H) as E.
  simpl in E. rewrite !app_nil_r in E. exact E.
Qed.

Lemma all_inputs_mapped_witness :
  make_inputs_relative Demo.tree ["/p/b.proto"; "/p/a.proto"] ["earlier"]
  = (true, ["b.proto"; "a.proto"], ["earlier"]).
Proof.
  apply all_inputs_mapped. repeat constructor.
Defined.

(** The first input that does not map is shadowed: the resolver fails at
    once with one diagnostic that names the input and the file shadowing
    it, each as [%s] prints it, up to its first NUL byte. The inputs before
    it have been replaced by their logical names; the shadowed input and
    everything behind it are left as they were. *)
Theorem shadowed_input_fails t pre vs input shadowing rest err :
  Forall2 (maps_to t) pre vs ->
  DiskFileToVirtualFile t input = SHADOWED shadowing ->
  make_inputs_relative t (pre ++ input :: rest) err
  = (false, vs ++ input :: rest,
     err ++ [shadowed_message (c_str input) (c_str shadowing)]).
Proof.
  intros Hpre Hin. rewrite (make_inputs_relative_mapped t pre vs _ err Hpre).
  simpl. rewrite Hin. reflexivity.
Qed.

Lemma shadowed_input_fails_witness :
  make_inputs_relative Demo.tree (["/p/b.proto"] ++ "/q/a.proto" :: ["/p/c.proto"]) []
  = (false, ["b.proto"] ++ "/q/a.proto" :: ["/p/c.proto"],
     [] ++ [shadowed_message (c_str "/q/a.proto") (c_str "/p/a.proto")]).
Proof.
  apply shadowed_input_fails; [repeat constructor|reflexivity].
Defined.


(** An input outside every search root that can be read as a logical name
    ends the loop with success: the inputs behind it are neither mapped nor
    checked, whatever they are, and nothing is printed. *)
Theorem literal_name_ends_resolution t pre vs input disk_file rest err :
  Forall2 (maps_to t) pre vs ->
  DiskFileToVirtualFile t input = NO_MAPPING ->
  VirtualFileToDiskFile t input = Some disk_file ->
  make_inputs_relative t (pre ++ input :: rest) err = (true, vs ++ input :: rest, err).
Proof.
  intros Hpre Hin Hv. rewrite (make_inputs_relative_mapped t pre vs _ err Hpre).
  simpl. rewrite Hin, Hv. reflexivity.
Qed.

Lemma literal_name_ends_resolution_witness :
  make_inputs_relative Demo.tree (["/p/a.proto"] ++ "b.proto" :: ["/q/a.proto"; "/p/c.proto"]) []
  = (true, ["a.proto"] ++ "b.proto" :: ["/q/a.proto"; "/p/c.proto"], []).
Proof.
  apply (literal_name_ends_resolution Demo.tree ["/p/a.proto"] ["a.proto"] "b.proto"
           "/p/b.proto"); [repeat constructor|reflexivity|reflexivity].
Defined.

End PathsExtra.

Module ParseExtra.

Import Diag Paths Bridge Derived.

(** When every requested name resolves, [parse_input_files] succeeds and
    appends the descriptors to [parsed_files] in the order of the inputs;
    whatever the lookups reported (warnings, say) has reached the collector
    in that same order. *)
Theorem all_inputs_parsed find inputs :
  forall fs acc ec,
    Forall2 (fun input f => (find input).1 = Some f) inputs fs ->
    parse_input_files find inputs acc ec
    = (true, acc ++ fs, report_all (concat ((fun input => (find input).2) <$> inputs)) ec).
Proof.
  induction inputs as [|x l IH]; intros fs acc ec H.
  - apply Forall2_nil_inv_l in H as ->. simpl. now rewrite app_nil_r.
  - apply Forall2_cons_inv_l in H as (f & fs' & Hx & Hl & ->).
    simpl. destruct (find x) as [o rs]. simpl in Hx. subst o.
    rewrite (IH fs' _ _ Hl). rewrite <- app_assoc. simpl.
    unfold report_all. rewrite foldl_app. reflexivity.
Qed.

Lemma all_inputs_parsed_witness :
  parse_input_files Demo.find_file ["c.proto"; "a.proto"] [2%positive] (Diag.new [] [])
  = (true, [2%positive] ++ [3%positive; 1%positive],
     report_all (concat ((fun input => (Demo.find_file input).2) <$> ["c.proto"; "a.proto"]))
                (Diag.new [] [])).
Proof.
  apply all_inputs_parsed. repeat constructor.
Defined.

(** The first lookup that fails stops [parse_input_files]: it returns
    [false]; [parsed_files] holds the descriptors found so far; the
    collector has received the reports of the lookups up to and including
    the failing one; the inputs behind it are not looked up. *)
Theorem first_unresolved_stops find pre fs input rest acc ec :
  Forall2 (fun i f => (find i).1 = Some f) pre fs ->
  (find input).1 = None ->
  parse_input_files find (pre ++ input :: rest) acc ec
  = (false, acc ++ fs,
     report_all (concat ((fun i => (find i).2) <$> (pre ++ [input]))) ec).
Proof.
  revert fs acc ec. induction pre as [|x l IH]; intros fs acc ec H Hin.
  - apply Forall2_nil_inv_l in H as ->. simpl.
    destruct (find input) as [o rs]. simpl in Hin. subst o.
    now rewrite !app_nil_r.
  - apply Forall2_cons_inv_l in H as (f & fs' & Hx & Hl & ->).
    simpl. destruct (find x) as [o rs]. simpl in Hx. subst o.
    rewrite (IH fs' _ _ Hl Hin). rewrite <- app_assoc. simpl.
    unfold report_all. rewrite foldl_app. reflexivity.
Qed.

Lemma first_unresolved_stops_witness :
  parse_input_files Demo.find_file (["a.proto"] ++ "broken.proto" :: ["nowhere.proto"]) []
    (Diag.new [] [])
  = (false, [] ++ [1%positive],
     report_all (concat ((fun i => (Demo.find_file i).2) <$> (["a.proto"] ++ ["broken.proto"])))
                (Diag.new [] [])).
Proof.
  apply first_unresolved_stops; [repeat constructor|reflexivity].
Defined.

End ParseExtra.

(** ** The import closure *)

Module ClosureExtra.

Import Closure ClosureFacts Derived.

Section traversal.
Context (pool : gmap positive FileDescriptor).

Lemma for_each_app {X S} (f : X -> S -> option S) xs ys s :
  for_each f (xs ++ ys) s
  = match for_each f xs s with Some s' => for_each f ys s' | None => None end.
Proof.
  revert s. induction xs as [|x xs IH]; intros s; simpl; [reflexivity|].
  destruct (f x s); [apply IH|reflexivity].
Qed.

Lemma option_Forall2_Some_l {A B} (R : A -> B -> Prop) x o :
  option_Forall2 R (Some x) o -> exists y, o = Some y /\ R x y.
Proof. inversion 1; eauto. Qed.

(** A batch of calls that returns has only appended to the output, and the
    appended records are those of the descriptors that the recorded
    traversal lists. *)
Lemma batch_appends ij isi fuel roots seen out seen' out' :
  for_each (fun r => get_transitive_deps pool fuel r ij isi) roots (seen, out)
  = Some (seen', out') ->
  exists order ps,
    out' = out ++ ps /\
    Forall2 (proto_at pool ij isi) order ps /\
    for_each (visit_order pool fuel) roots (seen, []) = Some (seen', order).
Proof.
  intros Hrun.
  assert (HR : in_step pool ij isi out (seen, out) (seen, [])).
  { split; [reflexivity|]. exists []. split; [now rewrite app_nil_r|constructor]. }
  pose proof (for_each_in_step (in_step pool ij isi out)
                (fun r => get_transitive_deps pool fuel r ij isi)
                (visit_order pool fuel) roots
                (get_transitive_deps_in_step pool ij isi out fuel) _ _ HR) as Hsim.
  rewrite Hrun in Hsim.
  apply option_Forall2_Some_l in Hsim as ([s2 order] & Hv & Hs & ps & Hps1 & Hps2).
  simpl in Hs, Hps1, Hps2. subst s2 out'.
  exists order, ps. auto.
Qed.

Lemma batch_seen_grows fuel roots seen order seen' order' :
  for_each (visit_order pool fuel) roots (seen, order) = Some (seen', order') ->
  seen ⊆ seen'.
Proof.
  intros Hrun. destruct (for_each_visit_extends pool _ _ _ _ _ _ Hrun) as (new & Hext).
  rewrite (ext_seen _ _ _ _ _ _ _ Hext). set_solver.
Qed.

(** The batch on a closed arena, with the seen set it ends in. *)
Lemma build_file_set_seen roots :
  closed pool ->
  (forall r, r ∈ roots -> is_Some (pool !! r)) ->
  exists seen file_set order,
    build_file_set pool (enough_fuel pool) roots = Some (seen, file_set) /\
    Forall2 (proto_at pool true true) order file_set /\
    seen = list_to_set order /\
    NoDup order /\
    (forall p, p ∈ order <-> exists r, r ∈ roots /\ rtc (edge pool) r p) /\
    (forall n d, n ∈ order -> edge pool n d -> d ∈ order).
Proof.
  intros Hclosed Hroots.
  destruct (build_file_set_spec pool roots Hclosed Hroots)
    as (seen & file_set & order & Hbuild & Hrec & Hnd & Hreach & _).
  unfold build_file_set in Hbuild.
  destruct (batch_appends _ _ _ _ _ _ _ _ Hbuild) as (order' & ps & Hps & Hrec' & Hrun).
  simpl in Hps. subst ps.
  destruct (for_each_visit_extends pool _ _ _ _ _ _ Hrun) as (new & [E1 E2 E3 E4 E5 E6 E7 E8]).
  simpl in E1. subst new.
  assert (Hmem : forall p, p ∈ order' <-> exists r, r ∈ roots /\ rtc (edge pool) r p).
  { intros p. split; [apply E6|].
    intros (r & Hr & Hpath).
    assert (Hin : r ∈ order') by (apply E5 in Hr; rewrite E2 in Hr; set_solver).
    clear Hr. induction Hpath as [|a b c Hab _ IH]; [exact Hin|].
    apply IH. pose proof (E7 a b Hin Hab) as Hb. rewrite E2 in Hb. set_solver. }
  exists seen, file_set, order'. split; [exact Hbuild|]. split; [exact Hrec'|].
  split; [rewrite E2; set_solver|]. split; [exact E3|]. split; [exact Hmem|].
  intros n d Hn He. pose proof (E7 n d Hn He) as Hd. rewrite E2 in Hd. set_solver.
Qed.

(** The record at a descriptor is determined by the descriptor. *)
Lemma proto_at_fmap ij isi dummy order ps :
  Forall2 (proto_at pool ij isi) order ps ->
  ps = (fun p => new_descriptor pool ij isi (default dummy (pool !! p))) <$> order.
Proof.
  induction 1 as [|p r order ps (d & Hd & ->) _ IH]; [reflexivity|].
  rewrite fmap_cons, Hd. f_equal. exact IH.
Qed.

End traversal.

(** Each copy is gated by its own flag: whatever a call of
    [get_transitive_deps] appends carries the json names exactly when
    [include_json_name] is set and the source code info exactly when
    [include_source_code_info] is set. The call never touches the records
    that were in the output before, and never removes a file from the seen
    set. *)
Theorem appended_records_follow_flags (pool : gmap positive FileDescriptor) (fuel : nat)
    (file : positive) (ij isi : bool) (seen seen' : gset positive)
    (out out' : list FileDescriptorProto) :
  get_transitive_deps pool fuel file ij isi (seen, out) = Some (seen', out') ->
  seen ⊆ seen' /\
  exists new,
    out' = out ++ new /\
    Forall (fun r => (is_Some (proto_json_names r) <-> ij = true) /\
                     (is_Some (proto_source_code_info r) <-> isi = true)) new.
Proof.
  intros Hrun.
  assert (Hbatch : for_each (fun r => get_transitive_deps pool fuel r ij isi) [file] (seen, out)
                   = Some (seen', out')).
  { simpl. now rewrite Hrun. }
  destruct (batch_appends pool _ _ _ _ _ _ _ _ Hbatch) as (order & ps & -> & Hrec & Hvisit).
  split; [eapply batch_seen_grows; eauto|].
  exists ps. split; [reflexivity|].
  clear Hbatch Hvisit Hrun. induction Hrec as [|p r order ps (d & _ & ->) _ IH]; constructor.
  - unfold new_descriptor.
    destruct ij, isi; simpl;
      (split; split; intros H;
       first [reflexivity | (eexists; reflexivity) | discriminate
             | (destruct H as [x Hx]; discriminate Hx)]).
  - exact IH.
Qed.

Lemma appended_records_follow_flags_witness :
  ∅ ⊆ ({[3%positive; 2%positive]} : gset positive) /\
  exists new,
    [new_descriptor Demo.files false true
       (mkFileDescriptor "c.proto" [] "C" "jc" "sc");
     new_descriptor Demo.files false true
       (mkFileDescriptor "b.proto" [3%positive] "B" "jb" "sb")] = [] ++ new /\
    Forall (fun r => (is_Some (proto_json_names r) <-> false = true) /\
                     (is_Some (proto_source_code_info r) <-> true = true)) new.
Proof.
  apply (appended_records_follow_flags Demo.files 4 2%positive false true ∅).
  vm_compute. reflexivity.
Defined.

(** Requesting more roots only appends: the file set for [roots ++ more]
    starts with the file set for [roots], record for record. *)
Theorem more_roots_only_append (pool : gmap positive FileDescriptor) (fuel : nat)
    (roots more : list positive) (seen2 : gset positive) (fs2 : list FileDescriptorProto) :
  build_file_set pool fuel (roots ++ more) = Some (seen2, fs2) ->
  exists seen1 fs1,
    build_file_set pool fuel roots = Some (seen1, fs1) /\
    fs1 `prefix_of` fs2 /\ seen1 ⊆ seen2.
Proof.
  unfold build_file_set. rewrite for_each_app.
  destruct (for_each _ roots (∅, [])) as [[seen1 fs1]|]; [|discriminate].
  intros Hmore. exists seen1, fs1. split; [reflexivity|].
  destruct (batch_appends pool _ _ _ _ _ _ _ _ Hmore) as (order & ps & -> & _ & Hvisit).
  split; [now apply prefix_app_r|]. eapply batch_seen_grows; eauto.
Qed.

Lemma more_roots_only_append_witness :
  exists seen1 fs1,
    build_file_set Demo.files 4 [2%positive] = Some (seen1, fs1) /\
    fs1 `prefix_of`
      [new_descriptor Demo.files true true (mkFileDescriptor "c.proto" [] "C" "jc" "sc");
       new_descriptor Demo.files true true
         (mkFileDescriptor "b.proto" [3%positive] "B" "jb" "sb");
       new_descriptor Demo.files true true
         (mkFileDescriptor "a.proto" [2%positive; 3%positive] "A" "ja" "sa")] /\
    seen1 ⊆ ({[1%positive; 2%positive; 3%positive]} : gset positive).
Proof.
  apply (more_roots_only_append Demo.files 4 [2%positive] [1%positive]).
  vm_compute. reflexivity.
Defined.

(** A root that is listed behind roots that already reach it (itself
    among them, so also a root listed a second time) changes nothing:
    dropping that occurrence gives the same file set, in the same order, and
    the same seen set, whatever roots follow it. *)
Theorem reached_root_adds_nothing (pool : gmap positive FileDescriptor)
    (roots more : list positive) (r : positive) :
  closed pool ->
  (forall r0, r0 ∈ roots -> is_Some (pool !! r0)) ->
  (exists r0, r0 ∈ roots /\ rtc (edge pool) r0 r) ->
  build_file_set pool (enough_fuel pool) (roots ++ r :: more)
  = build_file_set pool (enough_fuel pool) (roots ++ more).
Proof.
  intros Hclosed Hroots Hreach.
  destruct (build_file_set_seen pool roots Hclosed Hroots)
    as (seen & fs & order & Hbuild & _ & Hseen & _ & Hmem & _).
  unfold build_file_set in *. rewrite !for_each_app, Hbuild.
  unfold enough_fuel. simpl.
  destruct (decide (r ∈ seen)) as [_|Hn]; [reflexivity|].
  exfalso. apply Hn. rewrite Hseen. apply elem_of_list_to_set. now apply Hmem.
Qed.

(** [z.proto] reaches [y.proto], which is asked for behind it and in front
    of [x.proto]. *)
Lemma reached_root_adds_nothing_witness :
  build_file_set Demo.cyclic_files (enough_fuel Demo.cyclic_files)
    ([3%positive] ++ 2%positive :: [1%positive])
  = build_file_set Demo.cyclic_files (enough_fuel Demo.cyclic_files)
      ([3%positive] ++ [1%positive]).
Proof.
  apply reached_root_adds_nothing.
  - apply closed_check. apply (bool_decide_unpack _). vm_compute. exact I.
  - apply roots_check. apply (bool_decide_unpack _). vm_compute. exact I.
  - exists 3%positive. split; [apply list_elem_of_here|].
    eapply rtc_l; [|eapply rtc_l; [|apply rtc_refl]].
    + eexists. split; [vm_compute; reflexivity|]. apply list_elem_of_here.
    + eexists. split; [vm_compute; reflexivity|]. apply list_elem_of_here.
Defined.

(** The position matters: a reached root listed in front of the root that
    reaches it is visited first, and the records come out in another
    order. *)
Example reached_root_in_front :
  (fun r => match r with Some (_, l) => Some (proto_name <$> l) | None => None end)
    (build_file_set Demo.cyclic_files (enough_fuel Demo.cyclic_files)
       [2%positive; 3%positive])
  = Some ["x.proto"; "y.proto"; "z.proto"] /\
  (fun r => match r with Some (_, l) => Some (proto_name <$> l) | None => None end)
    (build_file_set Demo.cyclic_files (enough_fuel Demo.cyclic_files) [3%positive])
  = Some ["y.proto"; "x.proto"; "z.proto"].
Proof. vm_compute. split; reflexivity. Qed.

(** The order of the roots decides the order of the records and nothing
    else: two batches with the same roots, in any order and with any
    repetitions, give file sets that are permutations of each other. *)
Theorem root_order_permutes_file_set (pool : gmap positive FileDescriptor)
    (roots1 roots2 : list positive) :
  closed pool ->
  (forall r, r ∈ roots1 -> is_Some (pool !! r)) ->
  (forall r, r ∈ roots1 <-> r ∈ roots2) ->
  exists seen fs1 fs2,
    build_file_set pool (enough_fuel pool) roots1 = Some (seen, fs1) /\
    build_file_set pool (enough_fuel pool) roots2 = Some (seen, fs2) /\
    fs1 ≡ₚ fs2.
Proof.
  intros Hclosed Hroots Hsame.
  destruct (build_file_set_seen pool roots1 Hclosed Hroots)
    as (seen1 & fs1 & order1 & Hb1 & Hr1 & Hs1 & Hn1 & Hm1 & _).
  destruct (build_file_set_seen pool roots2 Hclosed)
    as (seen2 & fs2 & order2 & Hb2 & Hr2 & Hs2 & Hn2 & Hm2 & _).
  { intros r Hr. apply Hroots. now apply Hsame. }
  assert (Hperm : order1 ≡ₚ order2).
  { apply NoDup_Permutation; [exact Hn1|exact Hn2|].
    intros p. rewrite Hm1, Hm2. split; intros (r & Hr & Hp); exists r; split;
      auto; now apply Hsame. }
  assert (Hseen : seen1 = seen2).
  { rewrite Hs1, Hs2. apply set_eq. intros p. rewrite !elem_of_list_to_set.
    now rewrite Hperm. }
  rewrite <- Hseen in Hb2. exists seen1, fs1, fs2. split; [exact Hb1|]. split; [exact Hb2|].
  set (dummy := mkFileDescriptor EmptyString [] EmptyString EmptyString EmptyString).
  rewrite (proto_at_fmap pool true true dummy _ _ Hr1).
  rewrite (proto_at_fmap pool true true dummy _ _ Hr2).
  now apply fmap_Permutation.
Qed.

Lemma root_order_permutes_file_set_witness :
  exists seen fs1 fs2,
    build_file_set Demo.files (enough_fuel Demo.files) [1%positive; 3%positive]
    = Some (seen, fs1) /\
    build_file_set Demo.files (enough_fuel Demo.files) [3%positive; 1%positive; 3%positive]
    = Some (seen, fs2) /\
    fs1 ≡ₚ fs2.
Proof.
  apply root_order_permutes_file_set.
  - apply closed_check. apply (bool_decide_unpack _). vm_compute. exact I.
  - apply roots_check. apply (bool_decide_unpack _). vm_compute. exact I.
  - intros r. rewrite !elem_of_cons, !elem_of_nil. tauto.
Defined.

(** The file set is self-contained, cycles or not: every name in the
    dependency list of one of its records is the name of one of its
    records. *)
Theorem file_set_self_contained (pool : gmap positive FileDescriptor) (roots : list positive) :
  closed pool ->
  (forall r, r ∈ roots -> is_Some (pool !! r)) ->
  exists seen file_set,
    build_file_set pool (enough_fuel pool) roots = Some (seen, file_set) /\
    forall r dep_name,
      r ∈ file_set -> dep_name ∈ proto_dependency r ->
      exists r', r' ∈ file_set /\ proto_name r' = dep_name.
Proof.
  intros Hclosed Hroots.
  destruct (build_file_set_seen pool roots Hclosed Hroots)
    as (seen & fs & order & Hbuild & Hrec & _ & _ & _ & Hdeps).
  exists seen, fs. split; [exact Hbuild|].
  intros r dep_name Hr Hdep.
  apply list_elem_of_lookup in Hr as (i & Hi).
  destruct (Forall2_lookup_r _ _ _ _ _ Hrec Hi) as (N & HN & (d & Hd & ->)).
  assert (Hnames : proto_dependency (new_descriptor pool true true d)
                   = name_of pool <$> dependency d) by reflexivity.
  rewrite Hnames in Hdep. apply list_elem_of_fmap in Hdep as (q & -> & Hq).
  assert (Hin : q ∈ order).
  { apply (Hdeps N q); [apply list_elem_of_lookup; eauto|exists d; auto]. }
  apply list_elem_of_lookup in Hin as (j & Hj).
  destruct (Forall2_lookup_l _ _ _ _ _ Hrec Hj) as (r' & Hr' & (d' & Hd' & ->)).
  exists (new_descriptor pool true true d'). split; [apply list_elem_of_lookup; eauto|].
  unfold name_of. rewrite Hd'. reflexivity.
Qed.

Lemma file_set_self_contained_witness :
  exists seen file_set,
    build_file_set Demo.cyclic_files (enough_fuel Demo.cyclic_files) [2%positive]
    = Some (seen, file_set) /\
    forall r dep_name,
      r ∈ file_set -> dep_name ∈ proto_dependency r ->
      exists r', r' ∈ file_set /\ proto_name r' = dep_name.
Proof.
  apply file_set_self_contained.
  - apply closed_check. apply (bool_decide_unpack _). vm_compute. exact I.
  - apply roots_check. apply (bool_decide_unpack _). vm_compute. exact I.
Defined.

End ClosureExtra.

Module CycleExtra.

Import Closure ClosureFacts ClosureExtra Derived.

Section cycles.
Context (pool : gmap positive FileDescriptor).

Lemma imports_first_or_cycle_app order new1 new2 :
  imports_first_or_cycle pool order new1 ->
  imports_first_or_cycle pool (order ++ new1) new2 ->
  imports_first_or_cycle pool order (new1 ++ new2).
Proof.
  intros H1 H2 i n d Hi He.
  destruct (decide (i < length new1)%nat) as [Hlt|Hge].
  - rewrite lookup_app_l in Hi by exact Hlt.
    rewrite take_app_le by lia. eapply H1; eauto.
  - rewrite lookup_app_r in Hi by lia.
    rewrite take_app_ge by lia. rewrite app_assoc. eapply H2; eauto.
Qed.

Lemma batch_or_cycle_step fuel
    (IH : forall file seen order seen' order' new,
        visit_order pool fuel file (seen, order) = Some (seen', order') ->
        order' = order ++ new ->
        pending_import pool seen order [file] ->
        imports_first_or_cycle pool order new) :
  forall l seen order seen' order' new,
    for_each (visit_order pool fuel) l (seen, order) = Some (seen', order') ->
    order' = order ++ new ->
    pending_import pool seen order l ->
    imports_first_or_cycle pool order new.
Proof.
  induction l as [|x l IHl]; intros seen order seen' order' new Hrun Hnew Hpend;
    simpl in Hrun.
  - injection Hrun as <- <-.
    assert (new = []) as -> by (apply (app_inv_head order); now rewrite app_nil_r).
    intros i n d Hi. now rewrite lookup_nil in Hi.
  - destruct (visit_order pool fuel x (seen, order)) as [[s1 o1]|] eqn:Hx; [|discriminate].
    destruct (visit_order_extends pool _ _ _ _ _ _ Hx) as (new1 & E).
    destruct (for_each_visit_extends pool _ _ _ _ _ _ Hrun) as (new2 & F).
    pose proof (ext_order _ _ _ _ _ _ _ E) as E1.
    pose proof (ext_seen _ _ _ _ _ _ _ E) as E2.
    pose proof (ext_order _ _ _ _ _ _ _ F) as F1.
    assert (new = new1 ++ new2) as ->.
    { apply (app_inv_head order). rewrite <- Hnew, F1, E1. now rewrite app_assoc. }
    apply imports_first_or_cycle_app.
    + eapply IH; [exact Hx|exact E1|].
      intros s r Hs Hno Hr. apply list_elem_of_singleton in Hr as ->.
      apply Hpend; [exact Hs|exact Hno|apply list_elem_of_here].
    + rewrite <- E1. eapply IHl; [exact Hrun|exact F1|].
      intros s r Hs Hno Hr. apply Hpend; [| |now right].
      * rewrite E2 in Hs. apply elem_of_union in Hs as [Hs|Hs]; [exact Hs|].
        exfalso. apply Hno. rewrite E1. apply elem_of_app. right.
        now apply elem_of_list_to_set in Hs.
      * intros Ho. apply Hno. rewrite E1. apply elem_of_app. now left.
Qed.

Lemma visit_or_cycle fuel :
  forall file seen order seen' order' new,
    visit_order pool fuel file (seen, order) = Some (seen', order') ->
    order' = order ++ new ->
    pending_import pool seen order [file] ->
    imports_first_or_cycle pool order new.
Proof.
  induction fuel as [|fuel IH]; intros file seen order seen' order' new Hrun Hnew Hpend;
    [discriminate|].
  simpl in Hrun. destruct (decide (file ∈ seen)) as [Hin|Hnin].
  { injection Hrun as <- <-.
    assert (new = []) as -> by (apply (app_inv_head order); now rewrite app_nil_r).
    intros i n d Hi. now rewrite lookup_nil in Hi. }
  destruct (pool !! file) as [d0|] eqn:Hd; [|discriminate].
  destruct (for_each _ _ _) as [[s2 o2]|] eqn:Hdeps; [|discriminate].
  injection Hrun as <- <-.
  destruct (for_each_visit_extends pool _ _ _ _ _ _ Hdeps) as (new2 & F).
  pose proof (ext_order _ _ _ _ _ _ _ F) as F1.
  pose proof (ext_seen _ _ _ _ _ _ _ F) as F2.
  pose proof (ext_roots _ _ _ _ _ _ _ F) as F5.
  assert (new = new2 ++ [file]) as ->.
  { apply (app_inv_head order). rewrite <- Hnew, F1. now rewrite app_assoc. }
  assert (Hedge : forall x, x ∈ dependency d0 -> edge pool file x).
  { intros x Hx. exists d0. auto. }
  assert (Hdep : forall x, edge pool file x -> x ∈ dependency d0).
  { intros x (d' & Hd' & Hx). congruence. }
  assert (Hpend' : pending_import pool ({[file]} ∪ seen) order (dependency d0)).
  { intros s r Hs Hno Hr. apply elem_of_union in Hs as [Hs|Hs].
    - apply elem_of_singleton in Hs as ->. apply tc_once, Hedge, Hr.
    - eapply tc_r; [apply (Hpend s file Hs Hno); apply list_elem_of_here|apply Hedge, Hr]. }
  apply imports_first_or_cycle_app.
  - eapply (batch_or_cycle_step fuel IH); [exact Hdeps|exact F1|exact Hpend'].
  - intros i n x Hi He. destruct i as [|i]; simpl in Hi;
      [|rewrite lookup_nil in Hi; discriminate].
    injection Hi as <-. simpl. rewrite app_nil_r.
    pose proof (F5 x (Hdep x He)) as Hx. rewrite F2 in Hx.
    apply elem_of_union in Hx as [Hx|Hx].
    + apply elem_of_union in Hx as [Hx|Hx].
      * apply elem_of_singleton in Hx as ->. right. apply rtc_refl.
      * destruct (decide (x ∈ order)) as [Ho|Ho]; [left; apply elem_of_app; now left|].
        right. apply tc_rtc. apply (Hpend x file Hx Ho). apply list_elem_of_here.
    + left. apply elem_of_app. right. now apply elem_of_list_to_set in Hx.
Qed.

End cycles.

(** On any graph, cyclic or not: in the file set that a batch produces,
    every import of a node either sits at a strictly smaller index than the
    node, or imports the node in turn (over zero or more steps). The order
    is relaxed for the edges that close a cycle and for no others. *)
Theorem imports_first_except_on_cycles (pool : gmap positive FileDescriptor)
    (roots : list positive) :
  closed pool ->
  (forall r, r ∈ roots -> is_Some (pool !! r)) ->
  exists seen file_set order,
    build_file_set pool (enough_fuel pool) roots = Some (seen, file_set) /\
    Forall2 (proto_at pool true true) order file_set /\
    forall i N d, order !! i = Some N -> edge pool N d ->
                  (exists j, (j < i)%nat /\ order !! j = Some d) \/ rtc (edge pool) d N.
Proof.
  intros Hclosed Hroots.
  destruct (build_file_set_spec pool roots Hclosed Hroots)
    as (seen & file_set & order0 & Hbuild & _).
  unfold build_file_set in Hbuild.
  destruct (batch_appends pool _ _ _ _ _ _ _ _ Hbuild) as (order & ps & Hps & Hrec & Hrun).
  simpl in Hps. subst ps.
  exists seen, file_set, order. split; [exact Hbuild|]. split; [exact Hrec|].
  intros i N d Hi He.
  pose proof (batch_or_cycle_step pool (enough_fuel pool) (visit_or_cycle pool _)
                roots ∅ [] seen order order Hrun eq_refl) as Hfirst.
  destruct (Hfirst ltac:(intros s r Hs; set_solver) i N d Hi He) as [Hin|Hcycle];
    [left|now right].
  simpl in Hin. apply elem_of_take in Hin as (j & Hj & Hlt). eauto.
Qed.

(** [x.proto] and [y.proto] import each other, [z.proto] imports [x.proto]
    and itself. *)
Lemma imports_first_except_on_cycles_witness :
  exists seen file_set order,
    build_file_set Demo.cyclic_files (enough_fuel Demo.cyclic_files) [3%positive]
    = Some (seen, file_set) /\
    Forall2 (proto_at Demo.cyclic_files true true) order file_set /\
    forall i N d, order !! i = Some N -> edge Demo.cyclic_files N d ->
                  (exists j, (j < i)%nat /\ order !! j = Some d) \/
                  rtc (edge Demo.cyclic_files) d N.
Proof.
  apply imports_first_except_on_cycles.
  - apply closed_check. apply (bool_decide_unpack _). vm_compute. exact I.
  - apply roots_check. apply (bool_decide_unpack _). vm_compute. exact I.
Defined.

End CycleExtra.

(** ** The stream and the entry point *)

Module StreamExtra.

Import Int IntFacts Stream Caller StreamFacts.

(** Regions handed out by consecutive requests lie back to back: the second
    starts at the offset where the first ended, so no byte of the buffer is
    handed out twice and none is skipped. Each region is non-empty.
    (Lengths below [2^62], so that nothing wraps.) *)
Theorem consecutive_regions_contiguous {C} (impl : Buffer C) (s : BufferOutput) (ctx : C) :
  0 <= len s < 2 ^ 62 ->
  let '(r1, s1, c1) := Next impl s ctx in
  let '(r2, s2, c2) := Next impl s1 c1 in
  data r1 - buffer_base s1 = len s /\
  data r2 - buffer_base s2 = (data r1 - buffer_base s1) + size r1 /\
  0 < size r1 /\ 0 < size r2 /\
  len s2 = len s + size r1 + size r2.
Proof.
  intros Hlen.
  rewrite (Next_unfold impl s ctx). simpl.
  set (ns1 := next_size (len s) _).
  destruct (next_size_spec (len s) (to_size (buffer_capacity impl ctx))) as [_ H1]; [lia|].
  fold ns1 in H1.
  rewrite Next_unfold. simpl.
  set (ns2 := next_size ns1 _).
  destruct (next_size_spec ns1 (to_size (buffer_capacity impl (resize_buffer impl ctx ns1).1)))
    as [_ H2]; [unfold INT_MAX in *; lia|].
  fold ns2 in H2.
  rewrite !to_size_small by (unfold size_modulus, INT_MAX in *; lia).
  rewrite !to_int_small by (unfold INT_MAX in *; lia).
  repeat split; lia.
Qed.

Lemma consecutive_regions_contiguous_witness :
  let '(r1, s1, c1) := Next vec_buffer Stream.init Demo.empty_vec in
  let '(r2, s2, c2) := Next vec_buffer s1 c1 in
  data r1 - buffer_base s1 = len Stream.init /\
  data r2 - buffer_base s2 = (data r1 - buffer_base s1) + size r1 /\
  0 < size r1 /\ 0 < size r2 /\
  len s2 = len Stream.init + size r1 + size r2.
Proof.
  apply (consecutive_regions_contiguous vec_buffer Stream.init Demo.empty_vec).
  simpl. lia.
Defined.

End StreamExtra.

Module BridgeExtra.

Import Int IntFacts Diag Paths Closure Stream Caller Bridge StreamFacts ClosureFacts BridgeFacts.


Lemma report_clog r p : clog p `prefix_of` clog (report r p).
Proof. destruct r; simpl; first [reflexivity | now apply prefix_app_r]. Qed.

Lemma report_all_clog rs p : clog p `prefix_of` clog (report_all rs p).
Proof.
  induction rs as [|r rs IH] using rev_ind; [reflexivity|].
  rewrite DiagFacts.report_all_snoc. etrans; [exact IH|apply report_clog].
Qed.

Lemma parse_input_files_streams find l :
  forall acc ec,
    cerr ec `prefix_of` cerr (parse_input_files find l acc ec).2 /\
    clog ec `prefix_of` clog (parse_input_files find l acc ec).2.
Proof.
  induction l as [|x l IH]; intros acc ec; simpl; [split; reflexivity|].
  destruct (find x) as [[f|] rs]; simpl.
  - destruct (IH (acc ++ [f]) (report_all rs ec)) as [H1 H2].
    split; (etrans; [|eassumption]); [apply report_all_cerr|apply report_all_clog].
  - split; [apply report_all_cerr|apply report_all_clog].
Qed.






(** Diagnostics are only ever added: whatever the two streams held when the
    call started is still there, in place, when it returns. *)
Theorem streams_only_grow {C} (pb : Protobuf) (impl : Buffer C) (layout : Z)
    (input_files includes_paths : list string) (ctx : C) (err log : list string)
    (o : Outcome C) :
  write_descriptor_set_c pb layout input_files includes_paths impl ctx err log = Some o ->
  err `prefix_of` stderr o /\ log `prefix_of` stdlog o.
Proof.
  unfold write_descriptor_set_c.
  pose proof (make_inputs_relative_err (source_tree pb includes_paths) input_files err) as He.
  destruct (make_inputs_relative _ input_files err) as [[ok names] err'].
  destruct (make_inputs_relative _ input_files []) as [[ok0 names0] msgs].
  injection He as _ _ ->.
  destruct ok; simpl.
  2: { intros [= <-]. simpl. split; [now apply prefix_app_r|reflexivity]. }
  pose proof (parse_input_files_streams (FindFileByName pb includes_paths) names []
                (Diag.new (err ++ msgs) log)) as [Hc Hl].
  destruct (parse_input_files _ names [] _) as [[ok parsed] ec]. simpl in Hc, Hl.
  assert (Herr : err `prefix_of` cerr ec) by (etrans; [|exact Hc]; now apply prefix_app_r).
  destruct ok; simpl.
  2: { intros [= <-]. simpl. auto. }
  destruct (write_descriptor_set pb _ layout parsed impl ctx) as [[result ctx']|];
    [|discriminate].
  intros [= <-]. simpl. auto.
Qed.

Lemma streams_only_grow_witness :
  ["earlier"] `prefix_of`
    ["earlier"; "broken.proto:3:8: Expected top-level statement (e.g. message)."] /\
  ["earlier warning"] `prefix_of` ["earlier warning"].
Proof.
  apply (streams_only_grow Demo.protobuf failing_buffer 0 ["/p/broken.proto"] ["/p"] []
           ["earlier"] ["earlier warning"]
           (mkOutcome 1 []
              ["earlier"; "broken.proto:3:8: Expected top-level statement (e.g. message)."]
              ["earlier warning"])).
  vm_compute. reflexivity.
Defined.

(** With no input files the call succeeds without printing anything, and
    the caller's buffer holds the encoding of the empty file set, whatever
    it held before. *)
Theorem no_inputs_empty_file_set {C} (pb : Protobuf) (impl : Buffer C)
    (view : C -> list Byte.byte) (address : C -> Z) (layout : Z)
    (includes_paths : list string) (ctx : C) (err log : list string) :
  Faithful impl view address ->
  Z.of_nat (length (SerializeToBytes pb true layout [])) <= INT_MAX ->
  exists ctx',
    write_descriptor_set_c pb layout [] includes_paths impl ctx err log
    = Some (mkOutcome 0 ctx' err log) /\
    view ctx' = SerializeToBytes pb true layout [].
Proof.
  intros Hf Hfit. unfold write_descriptor_set_c. simpl.
  destruct (write_descriptor_set_view pb impl view address (arena pb includes_paths)
              layout [] ctx ∅ [] Hf eq_refl Hfit) as (ctx' & -> & Hview).
  exists ctx'. auto.
Qed.

Lemma no_inputs_empty_file_set_witness :
  exists ctx',
    write_descriptor_set_c Demo.protobuf 0 [] ["/p"] vec_buffer
      (mkVec [Byte.x01; Byte.x02] 5000 8192) ["earlier"] []
    = Some (mkOutcome 0 ctx' ["earlier"] []) /\
    bytes ctx' = SerializeToBytes Demo.protobuf true 0 [].
Proof.
  apply (no_inputs_empty_file_set Demo.protobuf vec_buffer bytes base).
  - exact vec_buffer_faithful.
  - apply Z.leb_le. vm_compute. reflexivity.
Defined.

End BridgeExtra.
